(** * sphinx.pycode.parser: a shallow embedding and its verified properties

    The development follows [sphinx/pycode/parser.py]: Python strings are
    sequences of code points, a raised exception is a [Raise] result, the
    token cursor threads its state explicitly, and the dictionaries that the
    analysis fills are finite maps. *)

From Stdlib Require Import ZArith NArith Ascii String Lia.
From stdpp Require Import base option list strings gmap.

Local Open Scope Z_scope.

(** ** Python strings *)

(** A Python [str] is a sequence of Unicode code points. *)
Abbreviation pystr := (list N).

(** ASCII literals, for readable examples. *)
Definition lit (s : string) : pystr :=
  map N_of_ascii (list_ascii_of_string s).

(** [str.isspace] of one character, the set that [str.strip()] removes. *)
Definition is_space (c : N) : bool :=
  ((9 <=? c) && (c <=? 13) || (28 <=? c) && (c <=? 32)
   || (c =? 133) || (c =? 160) || (c =? 5760)
   || (8192 <=? c) && (c <=? 8202)
   || (c =? 8232) || (c =? 8233) || (c =? 8239)
   || (c =? 8287) || (c =? 12288))%N.

Fixpoint lstrip (s : pystr) : pystr :=
  match s with
  | c :: rest => if is_space c then lstrip rest else s
  | [] => []
  end.

Definition rstrip (s : pystr) : pystr := rev (lstrip (rev s)).

Definition strip (s : pystr) : pystr := rstrip (lstrip s).

Fixpoint startswith (s prefix : pystr) : bool :=
  match prefix, s with
  | [], _ => true
  | p :: prefix', c :: s' => (N.eqb c p) && startswith s' prefix'
  | _ :: _, [] => false
  end.

(** ** Exceptions and results *)

Inductive exc : Type :=
| NameError (name : string)
| TypeError
| ValueError
| IndexError
| TokenError                         (* tokenize.TokenError *)
| RecursionError.

Inductive result (A : Type) : Type :=
| Ok (a : A)
| Raise (e : exc).
Arguments Ok {A} a.
Arguments Raise {A} e.

#[global] Instance result_ret : MRet result := fun _ a => Ok a.
#[global] Instance result_bind : MBind result := fun _ _ k r =>
  match r with
  | Ok a => k a
  | Raise e => Raise e
  end.

(** ** Python values that a token is compared with *)

(** The values of the built-in types that [Token.__eq__] tells apart, and
    the instances with the equality of [object].  A float, and an instance
    of a class with an [__eq__] of its own, are not among them. *)
Inductive pyval : Type :=
| VInt (z : Z)                      (* int; bool is a subclass of int *)
| VStr (s : pystr)
| VList (l : list pyval)
| VTuple (l : list pyval)
| VNone
| VObj (oid : nat).                 (* an instance with the default __eq__ *)

(** Python [==] on these values. *)
Fixpoint py_eq (a b : pyval) : bool :=
  match a, b with
  | VInt x, VInt y => Z.eqb x y
  | VStr s, VStr t => bool_decide (s = t)
  | VList l, VList m | VTuple l, VTuple m =>
      (fix go (l m : list pyval) : bool :=
         match l, m with
         | [], [] => true
         | x :: l', y :: m' => py_eq x y && go l' m'
         | _, _ => false
         end) l m
  | VNone, VNone => true
  | VObj i, VObj j => Nat.eqb i j
  | _, _ => false
  end.

(** ** Token *)

Module Token.

Record t : Type := mk {
  kind : Z;
  value : pystr;
  start : Z * Z;
  end_ : Z * Z;
  source : pystr
}.

(** [Token.__eq__]. *)
Definition __eq__ (self : t) (other : pyval) : result bool :=
  match other with
  | VInt k => Ok (Z.eqb (kind self) k)
  | VStr s => Ok (bool_decide (value self = s))
  | VList l | VTuple l =>
      Ok (py_eq (VList [VInt (kind self); VStr (value self)]) (VList l))
  | VNone => Ok false
  | VObj _ => Raise ValueError
  end.

(** [token == 'text'] for a string literal. *)
Definition eq_str (self : t) (s : pystr) : bool :=
  bool_decide (value self = s).

End Token.

Abbreviation Token := Token.t.

(** ** TokenProcessor *)

(** The comparison [token in condition] for a list or tuple: the elements
    are tried in order, each through the reflected [Token.__eq__]. *)
Fixpoint token_in (token : Token) (l : list pyval) : result bool :=
  match l with
  | [] => Ok false
  | x :: l' =>
      b ← Token.__eq__ token x;
      if b : bool then Ok true else token_in token l'
  end.

(** What [fetch_until] may be given as its [condition].  The callable here
    returns a truth value for every token; [Generator.condition] has the
    callables that raise. *)
Inductive condition : Type :=
| CStr (s : pystr)
| CSeq (l : list pyval)             (* a list or a tuple *)
| CCall (p : Token → bool)          (* a callable *)
| CInt (k : Z).                     (* an int, such as NEWLINE *)

(** The three-way test at the head of the loop of [fetch_until]. *)
Definition stops (cond : condition) (token : Token) : result bool :=
  match cond with
  | CStr s => Token.__eq__ token (VStr s)
  | CSeq l => token_in token l
  | CCall p => Ok (p token)
  | CInt _ => Ok false
  end.

(** The state of a cursor: the tokens its generator has still to yield, and
    the two slots.  The generator ends with [StopIteration] behind these
    tokens; [Generator] has the cursor over a generator that raises. *)
Record TokenProcessor : Type := mkTP {
  tokens : list Token;
  current : option Token;
  previous : option Token
}.

Definition TokenProcessor_init (toks : list Token) : TokenProcessor :=
  {| tokens := toks; current := None; previous := None |}.

Definition fetch_token (self : TokenProcessor) : option Token * TokenProcessor :=
  match tokens self with
  | token :: rest =>
      (Some token,
       {| tokens := rest; current := Some token; previous := current self |})
  | [] =>
      (None, {| tokens := []; current := None; previous := current self |})
  end.

(** The closing bracket that [fetch_until] looks for after [token]. *)
Definition closer (token : Token) : option pystr :=
  if Token.eq_str token (lit "(") then Some (lit ")")
  else if Token.eq_str token (lit "[") then Some (lit "]")
  else if Token.eq_str token (lit "{") then Some (lit "}")
  else None.

(** A run of a loop that may fail to finish within its fuel. *)
Inductive outcome (A : Type) : Type :=
| Done (a : A)
| Raised (e : exc)
| OutOfFuel.
Arguments Done {A} a.
Arguments Raised {A} e.
Arguments OutOfFuel {A}.

(** The loop of [fetch_until]; [acc] is the local list [tokens]. *)
Fixpoint fetch_until_loop (fuel : nat) (cond : condition) (acc : list Token)
    (self : TokenProcessor) : outcome (list Token * TokenProcessor) :=
  match fuel with
  | O => OutOfFuel
  | S fuel' =>
      match fetch_token self with
      | (None, self1) => Done (acc, self1)
      | (Some token, self1) =>
          match stops cond token with
          | Raise e => Raised e
          | Ok true => Done (acc, self1)
          | Ok false =>
              let acc1 := acc ++ [token] in
              match closer token with
              | Some cl =>
                  match fetch_until_loop fuel' (CStr cl) [] self1 with
                  | Done (inner, self2) =>
                      fetch_until_loop fuel' cond (acc1 ++ inner) self2
                  | Raised e => Raised e
                  | OutOfFuel => OutOfFuel
                  end
              | None => fetch_until_loop fuel' cond acc1 self1
              end
          end
      end
  end.

(** [TokenProcessor.fetch_until]: one unit of fuel per token left is enough
    (see [fetch_until_loop_total]). *)
Definition fetch_until (cond : condition) (self : TokenProcessor)
    : outcome (list Token * TokenProcessor) :=
  fetch_until_loop (S (length (tokens self))) cond [] self.

(** *** The fuel of [fetch_until] is enough *)

Definition with_prefix (acc : list Token)
    (o : outcome (list Token * TokenProcessor))
    : outcome (list Token * TokenProcessor) :=
  match o with
  | Done (r, s) => Done (acc ++ r, s)
  | Raised e => Raised e
  | OutOfFuel => OutOfFuel
  end.

(** *** What a scan accumulates *)

(** [scanned cond body acc]: scanning [body] with [cond] meets no stop at the
    top level and every bracket it opens is closed inside [body]; [acc] is
    what the scan accumulates.  A closing bracket that ends a group is
    consumed and is not part of [acc]; the tokens inside a group are
    compared with the closing bracket only, never with [cond]. *)
Inductive scanned (cond : condition) : list Token → list Token → Prop :=
| scanned_nil : scanned cond [] []
| scanned_token t body acc :
    stops cond t = Ok false → closer t = None →
    scanned cond body acc →
    scanned cond (t :: body) (t :: acc)
| scanned_group t cl inner iacc tc body acc :
    stops cond t = Ok false → closer t = Some cl →
    scanned (CStr cl) inner iacc → Token.value tc = cl →
    scanned cond body acc →
    scanned cond (t :: inner ++ tc :: body) (t :: iacc ++ acc).

(** [exhausts cond body acc]: scanning [body] with [cond] reaches the end of
    the input; brackets may be left open. *)
Inductive exhausts (cond : condition) : list Token → list Token → Prop :=
| exhausts_nil : exhausts cond [] []
| exhausts_token t body acc :
    stops cond t = Ok false → closer t = None →
    exhausts cond body acc →
    exhausts cond (t :: body) (t :: acc)
| exhausts_group t cl inner iacc tc body acc :
    stops cond t = Ok false → closer t = Some cl →
    scanned (CStr cl) inner iacc → Token.value tc = cl →
    exhausts cond body acc →
    exhausts cond (t :: inner ++ tc :: body) (t :: iacc ++ acc)
| exhausts_open t cl inner iacc :
    stops cond t = Ok false → closer t = Some cl →
    exhausts (CStr cl) inner iacc →
    exhausts cond (t :: inner) (t :: iacc).


(** *** Token kinds, in the numbering of CPython 3.11's [token] module *)

Definition ENDMARKER : Z := 0.
Definition NAME : Z := 1.
Definition NUMBER : Z := 2.
Definition STRING : Z := 3.
Definition NEWLINE : Z := 4.
Definition OP : Z := 54.
Definition COMMENT : Z := 61.
Definition NL : Z := 62.

(** A token of one physical line, as [tokenize.generate_tokens] yields it. *)
Definition tok (k : Z) (v : string) (line col : Z) (src : string) : Token :=
  Token.mk k (lit v) (line, col) (line, col + Z.of_nat (String.length v))
    (lit src).

(** ** AfterCommentParser *)

Record AfterCommentParser : Type := mkACP {
  processor : TokenProcessor;       (* the inherited TokenProcessor state *)
  comment : option pystr
}.

Definition AfterCommentParser_init (toks : list Token) : AfterCommentParser :=
  {| processor := TokenProcessor_init toks; comment := None |}.

(** The loop of [fetch_rvalue]; [acc] is the local list [tokens], which may
    receive the [None] of an exhausted [fetch_token]. *)
Fixpoint fetch_rvalue_loop (fuel : nat) (acc : list (option Token))
    (self : TokenProcessor) : outcome (list (option Token) * TokenProcessor) :=
  match fuel with
  | O => OutOfFuel
  | S fuel' =>
      match fetch_token self with
      | (None, self1) => Done (acc, self1)
      | (Some token, self1) =>
          if Token.eq_str token (lit ",") || Token.eq_str token (lit ")")
          then Done (acc, self1)
          else
            match closer token with
            | Some cl =>
                match fetch_until (CStr cl) self1 with
                | Done (inner, self2) =>
                    let '(next, self3) := fetch_token self2 in
                    fetch_rvalue_loop fuel'
                      (acc ++ [Some token] ++ (Some <$> inner) ++ [next]) self3
                | Raised e => Raised e
                | OutOfFuel => OutOfFuel
                end
            | None => fetch_rvalue_loop fuel' (acc ++ [Some token]) self1
            end
      end
  end.

Definition fetch_rvalue (self : TokenProcessor)
    : outcome (list (option Token) * TokenProcessor) :=
  fetch_rvalue_loop (S (length (tokens self))) [] self.

(** The first loop of [parse]: [true] when it left through [break], [false]
    when the tokens ran out and [parse] returns. *)
Fixpoint skip_lvalue (fuel : nat) (self : TokenProcessor)
    : outcome (bool * TokenProcessor) :=
  match fuel with
  | O => OutOfFuel
  | S fuel' =>
      match fetch_token self with
      | (None, self1) => Done (false, self1)
      | (Some token, self1) =>
          if Token.eq_str token (lit "=") || Token.eq_str token (lit ":")
          then Done (true, self1)
          else skip_lvalue fuel' self1
      end
  end.

(** What [parse] does with the token that follows the right-hand side. *)
Definition after_rvalue (self : AfterCommentParser)
    : outcome AfterCommentParser :=
  match fetch_token (processor self) with
  | (None, self1) => Done {| processor := self1; comment := comment self |}
  | (Some token, self1) =>
      if (Token.kind token =? COMMENT)
         && startswith (Token.value token) (lit "#:")
      then Done {| processor := self1;
                   comment := Some (strip (drop 2 (Token.value token))) |}
      else
        match fetch_until (CInt NEWLINE) self1 with
        | Done (_, self2) =>
            Done {| processor := self2; comment := comment self |}
        | Raised e => Raised e
        | OutOfFuel => OutOfFuel
        end
  end.

(** [AfterCommentParser.parse]. *)
Definition AfterCommentParser_parse (self : AfterCommentParser)
    : outcome AfterCommentParser :=
  match skip_lvalue (S (length (tokens (processor self)))) (processor self) with
  | Done (false, self1) =>
      Done {| processor := self1; comment := comment self |}
  | Done (true, self1) =>
      match fetch_rvalue self1 with
      | Done ([], self2) =>
          Done {| processor := self2; comment := comment self |}
      | Done (_ :: _, self2) =>
          after_rvalue {| processor := self2; comment := comment self |}
      | Raised e => Raised e
      | OutOfFuel => OutOfFuel
      end
  | Raised e => Raised e
  | OutOfFuel => OutOfFuel
  end.

(** The comment that the scanner finds in a token sequence. *)
Definition scan_comment (toks : list Token) : outcome (option pystr) :=
  match AfterCommentParser_parse (AfterCommentParser_init toks) with
  | Done self => Done (comment self)
  | Raised e => Raised e
  | OutOfFuel => OutOfFuel
  end.


(** The tokens of four one-line sources. *)
Definition tokens_x_eq_1 : list Token :=
  let src := "x = 1  #: the comment"%string in
  [ tok NAME "x" 1 0 src; tok OP "=" 1 2 src; tok NUMBER "1" 1 4 src;
    tok COMMENT "#: the comment" 1 7 src;
    Token.mk NEWLINE [] (1, 21) (1, 22) [];
    Token.mk ENDMARKER [] (2, 0) (2, 0) [] ].

Definition tokens_x_int : list Token :=
  let src := "x: int"%string in
  [ tok NAME "x" 1 0 src; tok OP ":" 1 1 src; tok NAME "int" 1 3 src;
    Token.mk NEWLINE [] (1, 6) (1, 7) [];
    Token.mk ENDMARKER [] (2, 0) (2, 0) [] ].

Definition tokens_self_y : list Token :=
  let src := "self.y = compute(a, (b, c), [d])  #: note"%string in
  [ tok NAME "self" 1 0 src; tok OP "." 1 4 src; tok NAME "y" 1 5 src;
    tok OP "=" 1 7 src; tok NAME "compute" 1 9 src; tok OP "(" 1 16 src;
    tok NAME "a" 1 17 src; tok OP "," 1 18 src; tok OP "(" 1 20 src;
    tok NAME "b" 1 21 src; tok OP "," 1 22 src; tok NAME "c" 1 24 src;
    tok OP ")" 1 25 src; tok OP "," 1 26 src; tok OP "[" 1 28 src;
    tok NAME "d" 1 29 src; tok OP "]" 1 30 src; tok OP ")" 1 31 src;
    tok COMMENT "#: note" 1 34 src;
    Token.mk NEWLINE [] (1, 41) (1, 42) [];
    Token.mk ENDMARKER [] (2, 0) (2, 0) [] ].

Definition tokens_x_call_call : list Token :=
  let src := "x: f(a)(b)  #: c"%string in
  [ tok NAME "x" 1 0 src; tok OP ":" 1 1 src; tok NAME "f" 1 3 src;
    tok OP "(" 1 4 src; tok NAME "a" 1 5 src; tok OP ")" 1 6 src;
    tok OP "(" 1 7 src; tok NAME "b" 1 8 src; tok OP ")" 1 9 src;
    tok COMMENT "#: c" 1 12 src;
    Token.mk NEWLINE [] (1, 16) (1, 17) [];
    Token.mk ENDMARKER [] (2, 0) (2, 0) [] ].

(** *** Conditions whose test returns *)

(** A condition whose test cannot raise. *)
Definition safe (cond : condition) : Prop :=
  ∀ t, ∃ b, stops cond t = Ok b.

(** *** The steps of [parse] *)


Definition ends_rvalue (t : Token) : bool :=
  Token.eq_str t (lit ",") || Token.eq_str t (lit ")").

Definition is_doc_comment (t : Token) : bool :=
  (Token.kind t =? COMMENT) && startswith (Token.value t) (lit "#:").


(** ** The syntax tree *)

(** The nodes of Python's [ast] module that the parser inspects.  A node is
    an object: [oid] is its identity.  [ast.AST] defines no [__eq__], so [==]
    between nodes is the identity test of [object]. *)
Module ast.

Inductive node : Type :=
| Name (oid : nat) (id : pystr)
| Attribute (oid : nat) (value : node) (attr : pystr)
| Tuple (oid : nat) (elts : list node)
| List_ (oid : nat) (elts : list node)            (* ast.List *)
| Subscript (oid : nat) (value : node) (slice : node)
| Starred (oid : nat) (value : node)
| Constant (oid : nat) (value : pyval)
| Call (oid : nat) (func : node) (args : list node)
| arg (oid : nat) (name : pystr).

Definition oid_of (n : node) : nat :=
  match n with
  | Name o _ | Attribute o _ _ | Tuple o _ | List_ o _ | Subscript o _ _
  | Starred o _ | Constant o _ | Call o _ _ | arg o _ => o
  end.

(** The identities of all the objects of a tree. *)
Fixpoint oids (n : node) : list nat :=
  match n with
  | Name o _ | Constant o _ | arg o _ => [o]
  | Attribute o v _ | Starred o v => o :: oids v
  | Subscript o v s => o :: oids v ++ oids s
  | Tuple o l | List_ o l =>
      o :: (fix go (l : list node) : list nat :=
              match l with
              | [] => []
              | x :: l' => oids x ++ go l'
              end) l
  | Call o f l =>
      o :: oids f ++
        (fix go (l : list node) : list nat :=
           match l with
           | [] => []
           | x :: l' => oids x ++ go l'
           end) l
  end.

(** [a == b] where [b] is a node or [None]. *)
Definition eq (a : node) (b : option node) : bool :=
  match b with
  | Some b => Nat.eqb (oid_of a) (oid_of b)
  | None => false
  end.

End ast.

(** [get_lvar_names]. *)
Fixpoint get_lvar_names (node : ast.node) (self : option ast.node)
    : result (list pystr) :=
  match node with
  | ast.Name _ id => Ok [id]
  | ast.Attribute _ value attr =>
      if ast.eq value self then Ok [attr] else Raise TypeError
  | ast.Tuple _ elts | ast.List_ _ elts =>
      (fix loop (names : list pystr) (elts : list ast.node)
         : result (list pystr) :=
         match elts with
         | [] => Ok names
         | elt :: elts' =>
             more ← get_lvar_names elt self;
             loop (names ++ more) elts'
         end) [] elts
  | _ => Raise TypeError
  end.

(** The loop of [get_lvar_names] over the elements of a tuple or list. *)
Fixpoint lvar_names_loop (self : option ast.node) (names : list pystr)
    (elts : list ast.node) : result (list pystr) :=
  match elts with
  | [] => Ok names
  | elt :: elts' =>
      more ← get_lvar_names elt self;
      lvar_names_loop self (names ++ more) elts'
  end.

(** The target of [self.y = compute(a, (b, c), [d])] and the first
    parameter of [def m(self)], as [ast.parse] builds them: two objects. *)
Definition self_param : ast.node := ast.arg 1 (lit "self").
Definition target_self_y : ast.node :=
  ast.Attribute 2 (ast.Name 3 (lit "self")) (lit "y").

(** ** dedent_docstring *)

(** [str.expandtabs()] with the default tab size of 8: the column restarts
    after a line feed or a carriage return. *)
Fixpoint expandtabs_from (col : nat) (s : pystr) : pystr :=
  match s with
  | [] => []
  | c :: rest =>
      if (c =? 9)%N then
        let incr := (8 - col mod 8)%nat in
        replicate incr 32%N ++ expandtabs_from (col + incr) rest
      else if ((c =? 10) || (c =? 13))%N then c :: expandtabs_from 0 rest
      else c :: expandtabs_from (S col) rest
  end.

Definition expandtabs (s : pystr) : pystr := expandtabs_from 0 s.

(** The line boundaries of [str.splitlines()]. *)
Definition is_linebreak (c : N) : bool :=
  ((10 <=? c) && (c <=? 13) || (28 <=? c) && (c <=? 30)
   || (c =? 133) || (c =? 8232) || (c =? 8233))%N.

(** [str.splitlines()]; [cur] is the line being read, reversed.  A carriage
    return followed by a line feed is one boundary. *)
Fixpoint splitlines_from (cur : pystr) (s : pystr) : list pystr :=
  match s with
  | [] => match cur with [] => [] | _ => [rev cur] end
  | c :: rest =>
      if is_linebreak c then
        rev cur ::
          match rest with
          | c' :: rest' =>
              if ((c =? 13) && (c' =? 10))%N then splitlines_from [] rest'
              else splitlines_from [] rest
          | [] => splitlines_from [] rest
          end
      else splitlines_from (c :: cur) rest
  end.

Definition splitlines (s : pystr) : list pystr := splitlines_from [] s.

(** [len(line) - len(line.lstrip())]. *)
Definition indentation (line : pystr) : Z :=
  Z.of_nat (length line) - Z.of_nat (length (lstrip line)).

(** [min(...)] of a generator of integers. *)
Definition py_min (l : list Z) : result Z :=
  match l with
  | [] => Raise ValueError
  | x :: l' => Ok (foldr Z.min x l')
  end.

(** [line[indent:]] for an index that is not negative. *)
Definition slice_from (indent : Z) (line : pystr) : pystr :=
  drop (Z.to_nat indent) line.

(** [while result and not result[-1]: result.pop()]. *)
Fixpoint pop_blank_tail (result : list pystr) : list pystr :=
  match result with
  | [] => []
  | line :: rest =>
      match pop_blank_tail rest, line with
      | [], [] => []
      | rest', _ => line :: rest'
      end
  end.

(** [while result and not result[0]: result.pop(0)]. *)
Fixpoint pop_blank_head (result : list pystr) : list pystr :=
  match result with
  | [] :: rest => pop_blank_head rest
  | _ => result
  end.

(** ['\n'.join(result)]. *)
Fixpoint join_lines (result : list pystr) : pystr :=
  match result with
  | [] => []
  | [line] => line
  | line :: rest => line ++ 10%N :: join_lines rest
  end.

(** [dedent_docstring]. *)
Definition dedent_docstring (s : pystr) : result pystr :=
  match s with
  | [] => Ok s
  | _ =>
      let lines := splitlines (expandtabs s) in
      indent ← py_min (indentation <$>
                         filter (λ line, strip line ≠ []) (drop 1 lines));
      first ← match lines with
              | [] => Raise IndexError
              | line :: _ => Ok (strip line)
              end;
      let indent := if indent <? 0 then 0 else indent in
      let result :=
        [first] ++ ((λ line, rstrip (slice_from indent line)) <$> drop 1 lines) in
      Ok (join_lines (pop_blank_head (pop_blank_tail result)))
  end.

(** ** Parser *)

(** The names bound in the module's namespace once [parser.py] has been
    executed: the names it imports, the names it defines, and the attributes
    every module has. *)
Definition module_globals : list string :=
  [ "annotations"; "ast"; "contextlib"; "functools"; "inspect"; "itertools";
    "operator"; "re"; "tokenize"; "Signature"; "DEDENT"; "INDENT"; "NAME";
    "NEWLINE"; "NUMBER"; "OP"; "STRING"; "COMMENT"; "NL"; "Any";
    "ast_unparse"; "comment_re"; "indent_re"; "emptyline_re";
    "get_assign_targets"; "get_lvar_names"; "dedent_docstring"; "Token";
    "TokenProcessor"; "AfterCommentParser"; "VariableCommentPicker";
    "DefinitionFinder"; "Parser";
    "__name__"; "__doc__"; "__package__"; "__loader__"; "__spec__";
    "__file__"; "__cached__"; "__builtins__" ]%string.

(** The names of the [builtins] module (CPython 3.11). *)
Definition builtins : list string :=
  [ "ArithmeticError"; "AssertionError"; "AttributeError"; "BaseException";
    "BaseExceptionGroup"; "BlockingIOError"; "BrokenPipeError"; "BufferError";
    "BytesWarning"; "ChildProcessError"; "ConnectionAbortedError";
    "ConnectionError"; "ConnectionRefusedError"; "ConnectionResetError";
    "DeprecationWarning"; "EOFError"; "Ellipsis"; "EncodingWarning";
    "EnvironmentError"; "Exception"; "ExceptionGroup"; "False";
    "FileExistsError"; "FileNotFoundError"; "FloatingPointError";
    "FutureWarning"; "GeneratorExit"; "IOError"; "ImportError";
    "ImportWarning"; "IndentationError"; "IndexError"; "InterruptedError";
    "IsADirectoryError"; "KeyError"; "KeyboardInterrupt"; "LookupError";
    "MemoryError"; "ModuleNotFoundError"; "NameError"; "None";
    "NotADirectoryError"; "NotImplemented"; "NotImplementedError"; "OSError";
    "OverflowError"; "PendingDeprecationWarning"; "PermissionError";
    "ProcessLookupError"; "RecursionError"; "ReferenceError";
    "ResourceWarning"; "RuntimeError"; "RuntimeWarning";
    "StopAsyncIteration"; "StopIteration"; "SyntaxError"; "SyntaxWarning";
    "SystemError"; "SystemExit"; "TabError"; "TimeoutError"; "True";
    "TypeError"; "UnboundLocalError"; "UnicodeDecodeError";
    "UnicodeEncodeError"; "UnicodeError"; "UnicodeTranslateError";
    "UnicodeWarning"; "UserWarning"; "ValueError"; "Warning";
    "ZeroDivisionError"; "__build_class__"; "__debug__"; "__doc__";
    "__import__"; "__loader__"; "__name__"; "__package__"; "__spec__"; "abs";
    "aiter"; "all"; "anext"; "any"; "ascii"; "bin"; "bool"; "breakpoint";
    "bytearray"; "bytes"; "callable"; "chr"; "classmethod"; "compile";
    "complex"; "copyright"; "credits"; "delattr"; "dict"; "dir"; "divmod";
    "enumerate"; "eval"; "exec"; "exit"; "filter"; "float"; "format";
    "frozenset"; "getattr"; "globals"; "hasattr"; "hash"; "help"; "hex"; "id";
    "input"; "int"; "isinstance"; "issubclass"; "iter"; "len"; "license";
    "list"; "locals"; "map"; "max"; "memoryview"; "min"; "next"; "object";
    "oct"; "open"; "ord"; "pow"; "print"; "property"; "quit"; "range"; "repr";
    "reversed"; "round"; "set"; "setattr"; "slice"; "sorted"; "staticmethod";
    "str"; "sum"; "super"; "tuple"; "type"; "vars"; "zip" ]%string.

(** Loading a name that is not local to the function: the module's
    namespace, then the builtins, then [NameError]. *)
Definition load_global (name : string) : result string :=
  if bool_decide (name ∈ module_globals) then Ok name
  else if bool_decide (name ∈ builtins) then Ok name
  else Raise (NameError name).

Record Parser : Type := mkParser {
  Parser_code : pystr;
  Parser_encoding : pystr;
  Parser_annotations : gmap (pystr * pystr) pystr;
  Parser_comments : gmap (pystr * pystr) pystr;
  Parser_deforders : gmap pystr Z;
  Parser_definitions : gmap pystr (pystr * Z * Z);
  Parser_finals : list pystr
}.

Section Parser.

(** What calling a global of the module on a string gives. *)
Variable call : string → pystr → result pystr.

(** [Parser.__init__]. *)
Definition Parser_init (code encoding : pystr) : result Parser :=
  f ← load_global "filter_whitespace";
  code' ← call f code;
  Ok {| Parser_code := code'; Parser_encoding := encoding;
        Parser_annotations := ∅; Parser_comments := ∅;
        Parser_deforders := ∅; Parser_definitions := ∅;
        Parser_finals := [] |}.

(** Whatever [Parser.parse] does with an instance. *)
Variable parse : Parser → result Parser.

(** The analysis of a source text: construct the parser, then parse. *)
Definition analyze (code : pystr) : result Parser :=
  parser ← Parser_init code (lit "utf-8");
  parse parser.

End Parser.

(** ** VariableCommentPicker *)

(** The nodes of the syntax tree that the walker is handed: a module and its
    statements. *)
Inductive stmt : Type :=
| Module_ (body : list stmt)
| Import (names : list pystr)             (* Import and ImportFrom *)
| Assign (targets : list ast.node) (value : ast.node)
| AnnAssign (target : ast.node) (annotation : ast.node)
    (value : option ast.node)
| Expr (value : ast.node)
| Try (body : list stmt) (handlers : list (list stmt)) (orelse : list stmt)
| ClassDef (name : pystr) (body : list stmt)
| FunctionDef (name : pystr) (args : list ast.node) (body : list stmt)
| AsyncFunctionDef (name : pystr) (args : list ast.node) (body : list stmt)
| Pass.

Module VariableCommentPicker.

(** The fields that [__init__] sets, but the overloads and the three names
    of [typing]. *)
Record t : Type := mk {
  counter : Z;                      (* the next value of itertools.count() *)
  buffers : list pystr;
  encoding : pystr;
  context : list pystr;
  current_classes : list pystr;
  current_function : option stmt;
  comments : gmap (pystr * pystr) pystr;
  annotations : gmap (pystr * pystr) pystr;
  previous : option stmt;
  deforders : gmap pystr Z;
  finals : list pystr
}.

(** [VariableCommentPicker.__init__]. *)
Definition init (buffers : list pystr) (encoding : pystr) : t :=
  {| counter := 0; buffers := buffers; encoding := encoding; context := [];
     current_classes := []; current_function := None; comments := ∅;
     annotations := ∅; previous := None; deforders := ∅; finals := [] |}.

(** The methods.  The body of each in [parser.py] is [pass]: a call returns
    [None] and leaves the instance as it is.  [visit] overrides the dispatch
    of [ast.NodeVisitor], so that no [visit_...] method is reached through
    it. *)
Definition get_qualname_for (self : t) (name : pystr) : option (list pystr) :=
  None.

Definition get_self (self : t) : option ast.node := None.

Definition get_line (self : t) (lineno : Z) : option pystr := None.

Definition visit (self : t) (node : stmt) : t := self.

Definition visit_Import (self : t) (node : stmt) : t := self.

Definition visit_ImportFrom (self : t) (node : stmt) : t := self.

Definition visit_Assign (self : t) (node : stmt) : t := self.

Definition visit_AnnAssign (self : t) (node : stmt) : t := self.

Definition visit_Expr (self : t) (node : stmt) : t := self.

Definition visit_Try (self : t) (node : stmt) : t := self.

Definition visit_ClassDef (self : t) (node : stmt) : t := self.

Definition visit_FunctionDef (self : t) (node : stmt) : t := self.

Definition visit_AsyncFunctionDef (self : t) (node : stmt) : t := self.

End VariableCommentPicker.

(** ** DefinitionFinder *)

Module DefinitionFinder.

(** The cursor that the class inherits, and the fields that [__init__]
    sets. *)
Record t : Type := mk {
  processor : TokenProcessor;
  decorator : option Token;
  context : list pystr;
  indents : list (pystr * option pystr * option Z);
  definitions : gmap pystr (pystr * Z * Z)
}.

(** [DefinitionFinder.__init__], over the tokens of the lines. *)
Definition init (toks : list Token) : t :=
  {| processor := TokenProcessor_init toks; decorator := None; context := [];
     indents := []; definitions := ∅ |}.

(** The methods.  The body of each in [parser.py] is [pass]. *)
Definition add_definition (self : t) (name : pystr) (entry : pystr * Z * Z)
    : t := self.

Definition parse (self : t) : t := self.

Definition parse_definition (self : t) (typ : pystr) : t := self.

Definition finalize_block (self : t) : t := self.

End DefinitionFinder.

(** *** Sources and their tokens *)

Definition nl : pystr := [10%N].



(** The tokens of three more one-line sources. *)
Definition tokens_call_args : list Token :=
  let src := "f(a, b), c"%string in
  [ tok NAME "f" 1 0 src; tok OP "(" 1 1 src; tok NAME "a" 1 2 src;
    tok OP "," 1 3 src; tok NAME "b" 1 5 src; tok OP ")" 1 6 src;
    tok OP "," 1 7 src; tok NAME "c" 1 9 src;
    Token.mk NEWLINE [] (1, 10) (1, 11) [];
    Token.mk ENDMARKER [] (2, 0) (2, 0) [] ].

Definition tokens_group : list Token :=
  let src := "(a);"%string in
  [ tok OP "(" 1 0 src; tok NAME "a" 1 1 src; tok OP ")" 1 2 src;
    tok OP ";" 1 3 src;
    Token.mk NEWLINE [] (1, 4) (1, 5) [];
    Token.mk ENDMARKER [] (2, 0) (2, 0) [] ].

Definition tokens_unclosed : list Token :=
  let src := "x = f(a]"%string in
  [ tok NAME "x" 1 0 src; tok OP "=" 1 2 src; tok NAME "f" 1 4 src;
    tok OP "(" 1 5 src; tok NAME "a" 1 6 src; tok OP "]" 1 7 src;
    Token.mk NEWLINE [] (1, 8) (1, 9) [];
    Token.mk ENDMARKER [] (2, 0) (2, 0) [] ].

(** A target that is not a plain variable: a subscript, a starred target,
    an attribute whose receiver is not the object [self], any other
    expression, or a tuple or list with such an element. *)
Inductive non_plain (self : option ast.node) : ast.node → Prop :=
| non_plain_Subscript o value slice :
    non_plain self (ast.Subscript o value slice)
| non_plain_Starred o value : non_plain self (ast.Starred o value)
| non_plain_Attribute o value attr :
    ast.eq value self = false → non_plain self (ast.Attribute o value attr)
| non_plain_Constant o v : non_plain self (ast.Constant o v)
| non_plain_Call o func args : non_plain self (ast.Call o func args)
| non_plain_Tuple o elts :
    Exists (non_plain self) elts → non_plain self (ast.Tuple o elts)
| non_plain_List o elts :
    Exists (non_plain self) elts → non_plain self (ast.List_ o elts).

(** The module of the two statements [d[0] = 'x'] and [y: int = 1], as
    [ast.parse] builds it, and its lines. *)
Definition target_d_0 : ast.node :=
  ast.Subscript 1 (ast.Name 2 (lit "d")) (ast.Constant 3 (VInt 0)).

Definition module_d_0_y : stmt :=
  Module_
    [ Assign [target_d_0] (ast.Constant 4 (VStr (lit "x")));
      AnnAssign (ast.Name 5 (lit "y")) (ast.Name 6 (lit "int"))
        (Some (ast.Constant 7 (VInt 1))) ].

Definition lines_d_0_y : list pystr :=
  [lit "d[0] = 'x'" ++ nl; lit "y: int = 1" ++ nl].

(** ** More of the module *)

(** [l[i]] on a Python list: a negative index counts from the end, and an
    index out of range raises [IndexError]. *)
Definition py_getitem {A : Type} (l : list A) (i : Z) : result A :=
  let n := Z.of_nat (length l) in
  let j := if i <? 0 then i + n else i in
  if (j <? 0) || (n <=? j) then Raise IndexError
  else match l !! Z.to_nat j with
       | Some x => Ok x
       | None => Raise IndexError
       end.

(** [TokenProcessor.get_line], over the field [buffers]. *)
Definition get_line (buffers : list pystr) (lineno : Z) : result pystr :=
  py_getitem buffers (lineno - 1).

(** The targets from which [get_lvar_names] derives names: names, attributes
    of the object [self], and tuples and lists of such targets. *)
Fixpoint is_plain (self : option ast.node) (n : ast.node) : bool :=
  match n with
  | ast.Name _ _ => true
  | ast.Attribute _ value _ => ast.eq value self
  | ast.Tuple _ elts | ast.List_ _ elts => forallb (is_plain self) elts
  | _ => false
  end.

(** The identifiers at the leaves of a target, from left to right. *)
Fixpoint names_of (n : ast.node) : list pystr :=
  match n with
  | ast.Name _ id => [id]
  | ast.Attribute _ _ attr => [attr]
  | ast.Tuple _ elts | ast.List_ _ elts => flat_map names_of elts
  | _ => []
  end.

(** [rvalue toks r rest]: what [fetch_rvalue] does on the tokens [toks]; [r]
    is the list it returns and [rest] are the tokens it leaves.  After the
    scan of a bracket group it appends the token that follows, whatever it
    is, or [None] when there is none. *)
Inductive rvalue : list Token → list (option Token) → list Token → Prop :=
| rvalue_end : rvalue [] [] []
| rvalue_term t rest : ends_rvalue t = true → rvalue (t :: rest) [] rest
| rvalue_token t body r rest :
    ends_rvalue t = false → closer t = None →
    rvalue body r rest →
    rvalue (t :: body) (Some t :: r) rest
| rvalue_group t cl inner iacc tc next body r rest :
    ends_rvalue t = false → closer t = Some cl →
    scanned (CStr cl) inner iacc → Token.value tc = cl →
    rvalue body r rest →
    rvalue (t :: inner ++ tc :: next :: body)
      (Some t :: (Some <$> iacc) ++ Some next :: r) rest
| rvalue_group_end t cl inner iacc tc :
    ends_rvalue t = false → closer t = Some cl →
    scanned (CStr cl) inner iacc → Token.value tc = cl →
    rvalue (t :: inner ++ [tc]) (Some t :: (Some <$> iacc) ++ [None]) []
| rvalue_open t cl inner iacc :
    ends_rvalue t = false → closer t = Some cl →
    exhausts (CStr cl) inner iacc →
    rvalue (t :: inner) (Some t :: (Some <$> iacc) ++ [None]) [].

(** The tokens of [x = 1,  #: doc], whose right-hand side a comma ends. *)
Definition tokens_x_eq_1_comma : list Token :=
  let src := "x = 1,  #: doc"%string in
  [ tok NAME "x" 1 0 src; tok OP "=" 1 2 src; tok NUMBER "1" 1 4 src;
    tok OP "," 1 5 src; tok COMMENT "#: doc" 1 8 src;
    Token.mk NEWLINE [] (1, 14) (1, 15) [];
    Token.mk ENDMARKER [] (2, 0) (2, 0) [] ].

(** The cursor after [n] calls of [fetch_token]. *)
Definition fetch_tokens (n : nat) (self : TokenProcessor) : TokenProcessor :=
  Nat.iter n (λ s, snd (fetch_token s)) self.

(** ** The cursor over a generator that may raise *)

(** [TokenProcessor] reads its tokens from the generator of
    [tokenize.generate_tokens].  After the tokens it yields the generator
    ends with [StopIteration], or it raises: [tokenize.TokenError] for a
    bracket that is still open at the end of the source.  [fetch_token]
    catches [StopIteration] and nothing else.  The definitions above are the
    case of a generator that ends with [StopIteration]; the ones below have
    the ending of the generator, callables that may raise, and the limit of
    the interpreter on nested calls. *)
Module Generator.

Record t : Type := mk {
  cursor : TokenProcessor;
  ending : option exc              (* [None]: StopIteration *)
}.

Definition init (toks : list Token) (ending : option exc) : t :=
  {| cursor := TokenProcessor_init toks; ending := ending |}.

(** [TokenProcessor.fetch_token]. *)
Definition fetch_token (self : t) : result (option Token * t) :=
  match tokens (cursor self) with
  | token :: rest =>
      Ok (Some token,
          {| cursor := {| tokens := rest; current := Some token;
                          previous := current (cursor self) |};
             ending := ending self |})
  | [] =>
      match ending self with
      | None =>
          Ok (None,
              {| cursor := {| tokens := []; current := None;
                              previous := current (cursor self) |};
                 ending := None |})
      | Some e => Raise e
      end
  end.

(** What [fetch_until] may be given as its [condition]; a callable returns a
    truth value or raises. *)
Inductive condition : Type :=
| CStr (s : pystr)
| CSeq (l : list pyval)
| CCall (p : Token → result bool)
| CInt (k : Z).

Definition stops (cond : condition) (token : Token) : result bool :=
  match cond with
  | CStr s => Token.__eq__ token (VStr s)
  | CSeq l => token_in token l
  | CCall p => p token
  | CInt _ => Ok false
  end.

(** The loop of [fetch_until].  [frames] is the number of nested calls of
    [fetch_until] that the recursion limit of the interpreter still admits:
    the call for a bracket group raises [RecursionError] when there is
    none. *)
Fixpoint fetch_until_loop (fuel frames : nat) (cond : condition)
    (acc : list Token) (self : t) : outcome (list Token * t) :=
  match fuel with
  | O => OutOfFuel
  | S fuel' =>
      match fetch_token self with
      | Raise e => Raised e
      | Ok (None, self1) => Done (acc, self1)
      | Ok (Some token, self1) =>
          match stops cond token with
          | Raise e => Raised e
          | Ok true => Done (acc, self1)
          | Ok false =>
              let acc1 := acc ++ [token] in
              match closer token with
              | Some cl =>
                  match frames with
                  | O => Raised RecursionError
                  | S frames' =>
                      match fetch_until_loop fuel' frames' (CStr cl) [] self1
                      with
                      | Done (inner, self2) =>
                          fetch_until_loop fuel' frames cond (acc1 ++ inner)
                            self2
                      | Raised e => Raised e
                      | OutOfFuel => OutOfFuel
                      end
                  end
              | None => fetch_until_loop fuel' frames cond acc1 self1
              end
          end
      end
  end.

(** [TokenProcessor.fetch_until]. *)
Definition fetch_until (frames : nat) (cond : condition) (self : t)
    : outcome (list Token * t) :=
  fetch_until_loop (S (length (tokens (cursor self)))) frames cond [] self.

(** The loop of [AfterCommentParser.fetch_rvalue]. *)
Fixpoint fetch_rvalue_loop (fuel frames : nat) (acc : list (option Token))
    (self : t) : outcome (list (option Token) * t) :=
  match fuel with
  | O => OutOfFuel
  | S fuel' =>
      match fetch_token self with
      | Raise e => Raised e
      | Ok (None, self1) => Done (acc, self1)
      | Ok (Some token, self1) =>
          if Token.eq_str token (lit ",") || Token.eq_str token (lit ")")
          then Done (acc, self1)
          else
            match closer token with
            | Some cl =>
                match frames with
                | O => Raised RecursionError
                | S frames' =>
                    match fetch_until frames' (CStr cl) self1 with
                    | Done (inner, self2) =>
                        match fetch_token self2 with
                        | Raise e => Raised e
                        | Ok (next, self3) =>
                            fetch_rvalue_loop fuel' frames
                              (acc ++ [Some token] ++ (Some <$> inner)
                                   ++ [next]) self3
                        end
                    | Raised e => Raised e
                    | OutOfFuel => OutOfFuel
                    end
                end
            | None => fetch_rvalue_loop fuel' frames (acc ++ [Some token]) self1
            end
      end
  end.

Definition fetch_rvalue (frames : nat) (self : t)
    : outcome (list (option Token) * t) :=
  fetch_rvalue_loop (S (length (tokens (cursor self)))) frames [] self.

(** The first loop of [AfterCommentParser.parse]. *)
Fixpoint skip_lvalue (fuel : nat) (self : t) : outcome (bool * t) :=
  match fuel with
  | O => OutOfFuel
  | S fuel' =>
      match fetch_token self with
      | Raise e => Raised e
      | Ok (None, self1) => Done (false, self1)
      | Ok (Some token, self1) =>
          if Token.eq_str token (lit "=") || Token.eq_str token (lit ":")
          then Done (true, self1)
          else skip_lvalue fuel' self1
      end
  end.

(** [AfterCommentParser.parse]; the result is the cursor and the comment. *)
Definition parse (frames : nat) (self : t) (comment : option pystr)
    : outcome (t * option pystr) :=
  match skip_lvalue (S (length (tokens (cursor self)))) self with
  | Done (false, self1) => Done (self1, comment)
  | Done (true, self1) =>
      match fetch_rvalue frames self1 with
      | Done ([], self2) => Done (self2, comment)
      | Done (_ :: _, self2) =>
          match fetch_token self2 with
          | Raise e => Raised e
          | Ok (None, self3) => Done (self3, comment)
          | Ok (Some token, self3) =>
              if (Token.kind token =? COMMENT)
                 && startswith (Token.value token) (lit "#:")
              then Done (self3, Some (strip (drop 2 (Token.value token))))
              else
                match frames with
                | O => Raised RecursionError
                | S frames' =>
                    match fetch_until frames' (CInt NEWLINE) self3 with
                    | Done (_, self4) => Done (self4, comment)
                    | Raised e => Raised e
                    | OutOfFuel => OutOfFuel
                    end
                end
          end
      | Raised e => Raised e
      | OutOfFuel => OutOfFuel
      end
  | Raised e => Raised e
  | OutOfFuel => OutOfFuel
  end.

End Generator.





(** * Properties *)

(** C8: a token equals a string iff its literal text is that string, an
    integer iff its kind is that integer, and a pair (kind, text) iff both
    agree. *)
Theorem Token_eq_spec (t : Token) (s : pystr) (k : Z) :
  (Token.__eq__ t (VStr s) = Ok true ↔ Token.value t = s) ∧
  (Token.__eq__ t (VInt k) = Ok true ↔ Token.kind t = k) ∧
  (Token.__eq__ t (VTuple [VInt k; VStr s]) = Ok true
     ↔ Token.kind t = k ∧ Token.value t = s) ∧
  (Token.__eq__ t (VList [VInt k; VStr s]) = Ok true
     ↔ Token.kind t = k ∧ Token.value t = s).
Proof.
  assert (Hpair : ∀ l, Token.__eq__ t l = Ok true →
                       l = VTuple [VInt k; VStr s] ∨ l = VList [VInt k; VStr s] →
                       Token.kind t = k ∧ Token.value t = s).
  { intros l H [-> | ->]; simpl in H; injection H as H;
      rewrite andb_true_r in H; apply andb_true_iff in H as [H1 H2];
      apply Z.eqb_eq in H1; apply bool_decide_eq_true in H2; done. }
  split_and!; split.
  - intros [= H]. by apply bool_decide_eq_true in H.
  - intros <-. simpl. by rewrite bool_decide_eq_true_2.
  - intros [= H]. by apply Z.eqb_eq in H.
  - intros <-. simpl. by rewrite Z.eqb_refl.
  - intros H. eapply Hpair; eauto.
  - intros [<- <-]. simpl. by rewrite Z.eqb_refl, bool_decide_eq_true_2.
  - intros H. eapply Hpair; eauto.
  - intros [<- <-]. simpl. by rewrite Z.eqb_refl, bool_decide_eq_true_2.
Qed.

Lemma with_prefix_app acc1 acc2 o :
  with_prefix acc1 (with_prefix acc2 o) = with_prefix (acc1 ++ acc2) o.
Proof. destruct o as [[r s]| |]; simpl; by rewrite ?app_assoc. Qed.

Lemma fetch_until_loop_acc fuel cond acc self :
  fetch_until_loop fuel cond acc self
  = with_prefix acc (fetch_until_loop fuel cond [] self).
Proof.
  revert cond acc self. induction fuel as [|fuel IH]; intros cond acc self.
  { done. }
  simpl. destruct (fetch_token self) as [[token|] self1]; simpl.
  2:{ by rewrite app_nil_r. }
  destruct (stops cond token) as [[|]|]; simpl; try done.
  { by rewrite app_nil_r. }
  destruct (closer token) as [cl|].
  - destruct (fetch_until_loop fuel (CStr cl) [] self1) as [[inner self2]| |];
      simpl; try done.
    rewrite (IH cond ((acc ++ [token]) ++ inner)), (IH cond ([token] ++ inner)).
    by rewrite with_prefix_app, app_assoc.
  - rewrite (IH cond (acc ++ [token])), (IH cond [token]).
    by rewrite with_prefix_app.
Qed.

Lemma fetch_token_tokens self o self1 :
  fetch_token self = (o, self1) →
  match o with
  | Some token => tokens self = token :: tokens self1 ∧ current self1 = Some token
  | None => tokens self = [] ∧ tokens self1 = [] ∧ current self1 = None
  end.
Proof.
  unfold fetch_token. destruct (tokens self) as [|token rest] eqn:E;
    intros [= <- <-]; simpl; auto.
Qed.

(** With more fuel than tokens the loop finishes, and never gives tokens back. *)
Lemma fetch_until_loop_total fuel cond acc self :
  (length (tokens self) < fuel)%nat →
  match fetch_until_loop fuel cond acc self with
  | Done (_, self') => (length (tokens self') ≤ length (tokens self))%nat
  | Raised _ => True
  | OutOfFuel => False
  end.
Proof.
  revert cond acc self. induction fuel as [|fuel IH]; intros cond acc self Hlt.
  { lia. }
  simpl. destruct (fetch_token self) as [[token|] self1] eqn:Ef;
    apply fetch_token_tokens in Ef.
  2:{ destruct Ef as (-> & -> & _). done. }
  destruct Ef as [Ef _]. rewrite Ef in Hlt |- *. simpl in Hlt |- *.
  destruct (stops cond token) as [[|]|]; try done.
  { lia. }
  destruct (closer token) as [cl|].
  - pose proof (IH (CStr cl) [] self1 ltac:(lia)) as H1.
    destruct (fetch_until_loop fuel (CStr cl) [] self1) as [[inner self2]| |];
      try done.
    pose proof (IH cond ((acc ++ [token]) ++ inner) self2 ltac:(lia)) as H2.
    destruct (fetch_until_loop fuel cond _ self2) as [[r self3]| |]; try done.
    lia.
  - pose proof (IH cond (acc ++ [token]) self1 ltac:(lia)) as H2.
    destruct (fetch_until_loop fuel cond _ self1) as [[r self3]| |]; try done.
    lia.
Qed.

(** A run that finished is not changed by more fuel. *)
Lemma fetch_until_loop_mono n m cond acc self :
  (n ≤ m)%nat →
  fetch_until_loop n cond acc self ≠ OutOfFuel →
  fetch_until_loop m cond acc self = fetch_until_loop n cond acc self.
Proof.
  revert m cond acc self. induction n as [|n IH]; intros m cond acc self Hle Hne.
  { done. }
  destruct m as [|m]; [lia|]. simpl in *.
  destruct (fetch_token self) as [[token|] self1]; try done.
  destruct (stops cond token) as [[|]|]; try done.
  destruct (closer token) as [cl|].
  - rewrite (IH m (CStr cl) [] self1) by
      (first [lia | by destruct (fetch_until_loop n (CStr cl) [] self1)]).
    destruct (fetch_until_loop n (CStr cl) [] self1) as [[inner self2]| |];
      try done.
    apply IH; [lia | done].
  - apply IH; [lia | done].
Qed.

(** [fetch_until] never runs out of fuel. *)
Lemma fetch_until_total cond self :
  fetch_until cond self ≠ OutOfFuel.
Proof.
  unfold fetch_until.
  pose proof (fetch_until_loop_total (S (length (tokens self))) cond [] self
                ltac:(lia)) as H.
  by destruct (fetch_until_loop _ cond [] self) as [[r s]| |].
Qed.

Lemma fetch_until_loop_fetch_until fuel cond self :
  (length (tokens self) < fuel)%nat →
  fetch_until_loop fuel cond [] self = fetch_until cond self.
Proof.
  intros Hlt. apply fetch_until_loop_mono; [lia|]. apply fetch_until_total.
Qed.

Lemma fetch_until_loop_S fuel cond acc self :
  fetch_until_loop (S fuel) cond acc self =
  match fetch_token self with
  | (None, self1) => Done (acc, self1)
  | (Some token, self1) =>
      match stops cond token with
      | Raise e => Raised e
      | Ok true => Done (acc, self1)
      | Ok false =>
          match closer token with
          | Some cl =>
              match fetch_until_loop fuel (CStr cl) [] self1 with
              | Done (inner, self2) =>
                  fetch_until_loop fuel cond ((acc ++ [token]) ++ inner) self2
              | Raised e => Raised e
              | OutOfFuel => OutOfFuel
              end
          | None => fetch_until_loop fuel cond (acc ++ [token]) self1
          end
      end
  end.
Proof. reflexivity. Qed.

(** The equation of [fetch_until], free of fuel. *)
Lemma fetch_until_unfold cond self :
  fetch_until cond self =
  match fetch_token self with
  | (None, self1) => Done ([], self1)
  | (Some token, self1) =>
      match stops cond token with
      | Raise e => Raised e
      | Ok true => Done ([], self1)
      | Ok false =>
          match closer token with
          | Some cl =>
              match fetch_until (CStr cl) self1 with
              | Done (inner, self2) =>
                  with_prefix (token :: inner) (fetch_until cond self2)
              | Raised e => Raised e
              | OutOfFuel => OutOfFuel
              end
          | None => with_prefix [token] (fetch_until cond self1)
          end
      end
  end.
Proof.
  unfold fetch_until at 1. rewrite fetch_until_loop_S.
  destruct (fetch_token self) as [[token|] self1] eqn:Ef; try done.
  apply fetch_token_tokens in Ef as [Ef _].
  assert (Hlen : length (tokens self) = S (length (tokens self1)))
    by (by rewrite Ef).
  destruct (stops cond token) as [[|]|]; try done.
  destruct (closer token) as [cl|].
  - rewrite fetch_until_loop_fetch_until by lia.
    pose proof (fetch_until_loop_total (S (length (tokens self1))) (CStr cl) []
                  self1 ltac:(lia)) as Hin.
    fold (fetch_until (CStr cl) self1) in Hin.
    destruct (fetch_until (CStr cl) self1) as [[inner self2]| |]; try done.
    rewrite fetch_until_loop_acc.
    rewrite fetch_until_loop_fetch_until by lia. done.
  - rewrite fetch_until_loop_acc.
    rewrite fetch_until_loop_fetch_until by lia. done.
Qed.

Lemma fetch_token_cons self token rest :
  tokens self = token :: rest →
  ∃ self1, fetch_token self = (Some token, self1) ∧
           tokens self1 = rest ∧ current self1 = Some token.
Proof. unfold fetch_token. intros ->. eauto. Qed.

Lemma fetch_token_nil self :
  tokens self = [] →
  ∃ self1, fetch_token self = (None, self1) ∧
           tokens self1 = [] ∧ current self1 = None.
Proof. unfold fetch_token. intros ->. eauto. Qed.

Lemma stops_CStr token cl :
  Token.value token = cl → stops (CStr cl) token = Ok true.
Proof. intros <-. simpl. by rewrite bool_decide_eq_true_2. Qed.

Lemma fetch_until_scanned cond body acc :
  scanned cond body acc →
  ∀ self tc post,
    tokens self = body ++ tc :: post → stops cond tc = Ok true →
    ∃ self', fetch_until cond self = Done (acc, self') ∧
             tokens self' = post ∧ current self' = Some tc.
Proof.
  induction 1 as [| cond t body acc Hs Hc _ IH
                  | cond t cl inner iacc tc' body acc Hs Hc _ IHin Hv _ IH];
    intros self tc post Htok Hstop; rewrite fetch_until_unfold.
  - destruct (fetch_token_cons _ _ _ Htok) as (self1 & -> & ? & ?).
    rewrite Hstop. eauto.
  - destruct (fetch_token_cons _ _ _ Htok) as (self1 & -> & Ht1 & _).
    rewrite Hs, Hc.
    destruct (IH self1 tc post Ht1 Hstop) as (self' & -> & ? & ?).
    simpl. eauto.
  - simpl in Htok. rewrite <- app_assoc in Htok. simpl in Htok.
    destruct (fetch_token_cons _ _ _ Htok) as (self1 & -> & Ht1 & _).
    rewrite Hs, Hc.
    destruct (IHin self1 tc' _ Ht1 (stops_CStr _ _ Hv)) as (self2 & -> & Ht2 & _).
    destruct (IH self2 tc post Ht2 Hstop) as (self' & -> & ? & ?).
    simpl. eauto.
Qed.

Lemma fetch_until_exhausts cond body acc :
  exhausts cond body acc →
  ∀ self,
    tokens self = body →
    ∃ self', fetch_until cond self = Done (acc, self') ∧
             tokens self' = [] ∧ current self' = None.
Proof.
  induction 1 as [| cond t body acc Hs Hc _ IH
                  | cond t cl inner iacc tc' body acc Hs Hc Hin Hv _ IH
                  | cond t cl inner iacc Hs Hc _ IHin];
    intros self Htok; rewrite fetch_until_unfold.
  - destruct (fetch_token_nil _ Htok) as (self1 & -> & ? & ?). eauto.
  - destruct (fetch_token_cons _ _ _ Htok) as (self1 & -> & Ht1 & _).
    rewrite Hs, Hc.
    destruct (IH self1 Ht1) as (self' & -> & ? & ?). simpl. eauto.
  - destruct (fetch_token_cons _ _ _ Htok) as (self1 & -> & Ht1 & _).
    rewrite Hs, Hc.
    destruct (fetch_until_scanned _ _ _ Hin self1 tc' _ Ht1 (stops_CStr _ _ Hv))
      as (self2 & -> & Ht2 & _).
    destruct (IH self2 Ht2) as (self' & -> & ? & ?). simpl. eauto.
  - destruct (fetch_token_cons _ _ _ Htok) as (self1 & -> & Ht1 & _).
    rewrite Hs, Hc.
    destruct (IHin self1 Ht1) as (self2 & -> & Ht2 & Hc2).
    rewrite fetch_until_unfold.
    destruct (fetch_token_nil _ Ht2) as (self3 & -> & ? & ?).
    simpl. rewrite app_nil_r. eauto.
Qed.

Lemma scanned_flat cond l :
  Forall (λ t, stops cond t = Ok false ∧ closer t = None) l →
  scanned cond l l.
Proof.
  induction 1 as [|t l [Hs Hc] _ IH]; [constructor|].
  by apply scanned_token.
Qed.




Lemma safe_CStr s : safe (CStr s).
Proof. intros t. simpl. eauto. Qed.

Lemma safe_CInt k : safe (CInt k).
Proof. intros t. simpl. eauto. Qed.

Lemma safe_CCall p : safe (CCall p).
Proof. intros t. simpl. eauto. Qed.

Lemma fetch_until_loop_safe fuel cond acc self e :
  safe cond → fetch_until_loop fuel cond acc self ≠ Raised e.
Proof.
  revert cond acc self. induction fuel as [|fuel IH]; intros cond acc self Hsafe.
  { done. }
  rewrite fetch_until_loop_S.
  destruct (fetch_token self) as [[token|] self1]; try done.
  destruct (Hsafe token) as [b ->]. destruct b; try done.
  destruct (closer token) as [cl|]; [|by apply IH].
  pose proof (IH (CStr cl) [] self1 (safe_CStr cl)) as Hin.
  destruct (fetch_until_loop fuel (CStr cl) [] self1) as [[inner self2]| |];
    try done.
  by apply IH.
Qed.

Lemma fetch_until_safe cond self :
  safe cond →
  ∃ r self', fetch_until cond self = Done (r, self') ∧
             (length (tokens self') ≤ length (tokens self))%nat.
Proof.
  intros Hsafe. unfold fetch_until.
  pose proof (fetch_until_loop_total (S (length (tokens self))) cond [] self
                ltac:(lia)) as Htot.
  pose proof (λ e, fetch_until_loop_safe (S (length (tokens self))) cond []
                     self e Hsafe) as Hok.
  destruct (fetch_until_loop _ cond [] self) as [[r self']|e|]; try done.
  - eauto.
  - by destruct (Hok e).
Qed.

Lemma fetch_token_length self o self1 :
  fetch_token self = (o, self1) →
  (length (tokens self1) ≤ length (tokens self))%nat ∧
  (is_Some o → length (tokens self1) < length (tokens self))%nat.
Proof.
  intros H. apply fetch_token_tokens in H. destruct o as [token|].
  - destruct H as [-> _]. simpl. split; [lia | intros _; lia].
  - destruct H as (-> & -> & _). split; [done | by intros [? ?]].
Qed.

Lemma fetch_rvalue_loop_total fuel acc self :
  (length (tokens self) < fuel)%nat →
  ∃ r self', fetch_rvalue_loop fuel acc self = Done (r, self') ∧
             (length (tokens self') ≤ length (tokens self))%nat.
Proof.
  revert acc self. induction fuel as [|fuel IH]; intros acc self Hlt; [lia|].
  simpl. destruct (fetch_token self) as [[token|] self1] eqn:Ef;
    apply fetch_token_length in Ef as [Hle Hlt1].
  2:{ eauto. }
  specialize (Hlt1 ltac:(eauto)).
  destruct (_ || _); [eauto|].
  destruct (closer token) as [cl|].
  - destruct (fetch_until_safe (CStr cl) self1 (safe_CStr cl))
      as (inner & self2 & -> & Hle2).
    destruct (fetch_token self2) as [next self3] eqn:Ef3.
    apply fetch_token_length in Ef3 as [Hle3 _].
    match goal with
    | |- context [fetch_rvalue_loop fuel ?a self3] =>
        destruct (IH a self3 ltac:(lia)) as (r & self' & -> & Hle')
    end.
    exists r, self'. split; [done | lia].
  - match goal with
    | |- context [fetch_rvalue_loop fuel ?a self1] =>
        destruct (IH a self1 ltac:(lia)) as (r & self' & -> & Hle')
    end.
    exists r, self'. split; [done | lia].
Qed.

Lemma skip_lvalue_total fuel self :
  (length (tokens self) < fuel)%nat →
  ∃ b self', skip_lvalue fuel self = Done (b, self').
Proof.
  revert self. induction fuel as [|fuel IH]; intros self Hlt; [lia|].
  simpl. destruct (fetch_token self) as [[token|] self1] eqn:Ef;
    apply fetch_token_length in Ef as [Hle Hlt1]; [|eauto].
  specialize (Hlt1 ltac:(eauto)).
  destruct (_ || _); [eauto|]. apply IH. lia.
Qed.

(** Over a list of tokens, which ends with [None], [parse] returns. *)
Lemma AfterCommentParser_parse_total self :
  ∃ self', AfterCommentParser_parse self = Done self'.
Proof.
  unfold AfterCommentParser_parse.
  destruct (skip_lvalue_total (S (length (tokens (processor self))))
              (processor self) ltac:(lia)) as ([|] & self1 & ->); [|eauto].
  unfold fetch_rvalue.
  destruct (fetch_rvalue_loop_total (S (length (tokens self1))) [] self1
              ltac:(lia)) as (r & self2 & -> & _).
  destruct r as [|x r]; [eauto|].
  unfold after_rvalue. simpl.
  destruct (fetch_token self2) as [[token|] self3]; [|eauto].
  destruct (_ && _); [eauto|].
  destruct (fetch_until_safe (CInt NEWLINE) self3 (safe_CInt _))
    as (? & self4 & -> & _).
  eauto.
Qed.








(** ** The claims about the token cursor *)

(** After an opening bracket the tokens up to its closing bracket are
    accumulated whatever they are, the closing bracket is consumed and left
    out, and the scan goes on behind it. *)
Lemma fetch_until_group cond t cl inner tc post self :
  stops cond t = Ok false → closer t = Some cl →
  Forall (λ x, Token.value x ≠ cl ∧ closer x = None) inner →
  Token.value tc = cl →
  tokens self = t :: inner ++ tc :: post →
  ∃ self2, tokens self2 = post ∧
           fetch_until cond self = with_prefix (t :: inner) (fetch_until cond self2).
Proof.
  intros Hs Hc Hin Hv Htok. rewrite fetch_until_unfold.
  destruct (fetch_token_cons _ _ _ Htok) as (self1 & -> & Ht1 & _).
  rewrite Hs, Hc.
  assert (Hsc : scanned (CStr cl) inner inner).
  { apply scanned_flat. eapply Forall_impl; [exact Hin|].
    intros x [Hx Hcx]. split; [|done]. simpl.
    by rewrite bool_decide_eq_false_2. }
  destruct (fetch_until_scanned _ _ _ Hsc self1 tc post Ht1 (stops_CStr _ _ Hv))
    as (self2 & -> & Ht2 & _).
  eauto.
Qed.

(** A scan stops at the first token at the top level that the condition
    matches; the tokens inside a bracket group are not compared with the
    condition. *)
Lemma fetch_until_stops_at_top_level cond body acc tc post self :
  scanned cond body acc →
  stops cond tc = Ok true →
  tokens self = body ++ tc :: post →
  ∃ self', fetch_until cond self = Done (acc, self') ∧
           tokens self' = post ∧ current self' = Some tc.
Proof. intros Hsc Hstop Htok. eapply fetch_until_scanned; eauto. Qed.

(** On [f(a, b), c] and the condition [","] the scan passes the comma
    between the brackets and stops at the one behind them. *)
Lemma fetch_until_stops_at_top_level_witness :
  ∃ self',
    fetch_until (CStr (lit ",")) (TokenProcessor_init tokens_call_args)
    = Done (take 5 tokens_call_args, self') ∧
    tokens self' = drop 7 tokens_call_args ∧
    current self' = Some (tok OP "," 1 7 "f(a, b), c").
Proof.
  refine (fetch_until_stops_at_top_level (CStr (lit ","))
            (take 6 tokens_call_args) (take 5 tokens_call_args)
            (tok OP "," 1 7 "f(a, b), c") (drop 7 tokens_call_args)
            (TokenProcessor_init tokens_call_args) _ _ _);
    [| reflexivity | reflexivity].
  apply scanned_token; [reflexivity | reflexivity |].
  refine (scanned_group _ _ (lit ")") [_; _; _] [_; _; _] _ [] [] _ _ _ _ _);
    [reflexivity | reflexivity | | reflexivity | constructor].
  repeat (apply scanned_token; [reflexivity | reflexivity |]).
  constructor.
Defined.

(** C3: on [(a);] and the condition [";"] the result of [fetch_until] is
    the opening bracket and [a].  The closing bracket of the group has been
    consumed and is not in the result: the nested scan returns at the
    closing bracket before it appends it. *)
Theorem fetch_until_drops_closing_bracket :
  match fetch_until (CStr (lit ";")) (TokenProcessor_init tokens_group) with
  | Done (r, self') =>
      r = take 2 tokens_group ∧
      Forall (λ t, Token.value t ≠ lit ")") r ∧
      tokens self' = drop 4 tokens_group
  | _ => False
  end.
Proof.
  vm_compute. split_and!; [reflexivity | | reflexivity].
  repeat constructor; discriminate.
Qed.


(** ** The claims about the scanner of trailing comments *)

(** C4: on [x = 1  #: the comment] the scanner finds no comment: the
    right-hand side is fetched up to a [,], a [)] or the end of the tokens,
    and so it swallows the comment. *)
Theorem scan_comment_x_eq_1 :
  scan_comment tokens_x_eq_1 = Done None ∧
  ∃ self', fetch_rvalue (TokenProcessor_init (drop 2 tokens_x_eq_1))
           = Done (Some <$> drop 2 tokens_x_eq_1, self') ∧ tokens self' = [].
Proof. split; [by vm_compute | eexists; by vm_compute]. Qed.

(** C5: on the annotation [x: f(a)(b)  #: c], which has no value, the
    scanner finds the comment [c]. *)
Theorem scan_comment_annotation_only :
  scan_comment tokens_x_call_call = Done (Some (lit "c")).
Proof. by vm_compute. Qed.

(** On [x: int] the fetched right-hand side is the annotation, and no
    comment is found. *)
Lemma scan_comment_x_int :
  scan_comment tokens_x_int = Done None ∧
  ∃ self', fetch_rvalue (TokenProcessor_init (drop 2 tokens_x_int))
           = Done (Some <$> drop 2 tokens_x_int, self').
Proof. split; [by vm_compute | eexists; by vm_compute]. Qed.

(** ** The claims about the names that an assignment binds *)

Lemma get_lvar_names_Name o id self :
  get_lvar_names (ast.Name o id) self = Ok [id].
Proof. reflexivity. Qed.

(** An attribute is a name only if its receiver is the very object [self]. *)
Lemma get_lvar_names_Attribute o value attr self :
  get_lvar_names (ast.Attribute o value attr) self
  = if ast.eq value self then Ok [attr] else Raise TypeError.
Proof. reflexivity. Qed.

(** Two objects of one heap: a receiver that is not the parameter object
    raises. *)
Lemma get_lvar_names_other_object o value attr param :
  NoDup (ast.oids (ast.Attribute o value attr) ++ ast.oids param) →
  get_lvar_names (ast.Attribute o value attr) (Some param) = Raise TypeError.
Proof.
  intros Hnd. simpl. destruct (Nat.eqb_spec (ast.oid_of value) (ast.oid_of param))
    as [Heq|]; [|done].
  exfalso. apply NoDup_app in Hnd as (_ & Hdisj & _).
  apply (Hdisj (ast.oid_of value)).
  - simpl. right. destruct value; simpl; left; done.
  - rewrite Heq. destruct param; simpl; left; done.
Qed.

(** C2: for [self.y = compute(a, (b, c), [d])  #: note] in a method whose
    first parameter is [self], the name extraction raises [TypeError], the
    receiver [self] being a node other than the parameter, and the scanner
    finds no comment either. *)
Theorem get_lvar_names_self_attribute :
  get_lvar_names target_self_y (Some self_param) = Raise TypeError ∧
  scan_comment tokens_self_y = Done None.
Proof. split; by vm_compute. Qed.

(** ** The claim about the facade *)

(** C1: constructing a [Parser] raises [NameError] for every source text,
    so that no analysis returns. *)
Theorem Parser_init_raises_NameError
    (call : string → pystr → result pystr) (code encoding : pystr) :
  Parser_init call code encoding = Raise (NameError "filter_whitespace") ∧
  ∀ parse, analyze call parse code = Raise (NameError "filter_whitespace").
Proof. split; [|intros parse]; reflexivity. Qed.

(** ** The claim about dedent_docstring *)

Lemma expandtabs_from_nonempty col s : s ≠ [] → expandtabs_from col s ≠ [].
Proof.
  destruct s as [|c rest]; [done|]. intros _. cbn [expandtabs_from].
  destruct (c =? 9)%N eqn:Htab.
  - pose proof (Nat.mod_upper_bound col 8 ltac:(lia)) as Hlt.
    remember (8 - col `mod` 8)%nat as incr eqn:Hincr.
    destruct incr as [|incr]; [lia | done].
  - by destruct (_ || _).
Qed.

Lemma expandtabs_from_no_linebreak col s :
  Forall (λ c, is_linebreak c = false) s →
  Forall (λ c, is_linebreak c = false) (expandtabs_from col s).
Proof.
  intros H. revert col. induction H as [|c rest Hc _ IH]; intros col; simpl.
  { constructor. }
  destruct (c =? 9)%N.
  - apply Forall_app. split; [|apply IH].
    apply Forall_forall. intros x Hx. apply elem_of_replicate in Hx as [-> _].
    reflexivity.
  - destruct (_ || _); constructor; auto.
Qed.

Lemma splitlines_from_nil cur s : splitlines_from cur s = [] → cur = [] ∧ s = [].
Proof.
  revert cur. induction s as [|c rest IH]; intros cur; simpl.
  - by destruct cur.
  - destruct (is_linebreak c); [done|].
    intros H. by apply IH in H as [? _].
Qed.

Lemma splitlines_from_no_linebreak cur s :
  Forall (λ c, is_linebreak c = false) s →
  rev cur ++ s ≠ [] →
  splitlines_from cur s = [rev cur ++ s].
Proof.
  intros H. revert cur. induction H as [|c rest Hc _ IH]; intros cur Hne; simpl.
  - rewrite app_nil_r in *. by destruct cur.
  - rewrite Hc. rewrite IH; simpl; rewrite <- app_assoc; [done|].
    simpl. by destruct (rev cur).
Qed.

Lemma py_min_filter_nil (lines : list pystr) :
  py_min (indentation <$> filter (λ line, strip line ≠ []) lines)
  = Raise ValueError
  ↔ Forall (λ line, strip line = []) lines.
Proof.
  induction lines as [|line lines IH]; simpl.
  { split; [constructor | done]. }
  rewrite filter_cons. destruct (decide (strip line ≠ [])) as [Hne|He]; simpl.
  - split; [done|]. intros H. apply Forall_cons in H as [H _]. done.
  - rewrite IH. apply dec_stable in He. split.
    + intros H. by constructor.
    + intros H. by apply Forall_cons in H as [_ H].
Qed.

Lemma py_min_cases (l : list Z) :
  py_min l = Raise ValueError ∨ ∃ m, py_min l = Ok m.
Proof. destruct l; simpl; eauto. Qed.

(** What [dedent_docstring] does once the minimum exists. *)
Lemma dedent_docstring_cases s :
  let rest := drop 1 (splitlines (expandtabs s)) in
  s ≠ [] →
  (Forall (λ line, strip line = []) rest ∧
   dedent_docstring s = Raise ValueError) ∨
  (Exists (λ line, strip line ≠ []) rest ∧ ∃ r, dedent_docstring s = Ok r).
Proof.
  intros rest Hne. unfold dedent_docstring. destruct s as [|c s']; [done|].
  fold rest.
  destruct (py_min_cases
              (indentation <$> filter (λ line, strip line ≠ []) rest))
    as [Hmin | [m Hmin]].
  - left. rewrite Hmin. split; [|done]. by apply py_min_filter_nil.
  - right. rewrite Hmin. simpl. split.
    + apply not_Forall_Exists; [intros x; apply _|].
      intros Hall. apply py_min_filter_nil in Hall.
      rewrite Hall in Hmin. done.
    + destruct (splitlines (expandtabs (c :: s'))) as [|line lines] eqn:Hl.
      * apply splitlines_from_nil in Hl as [_ Hl].
        by apply expandtabs_from_nonempty in Hl.
      * simpl. eauto.
Qed.

(** C10: [dedent_docstring] raises [ValueError] exactly on the strings that
    are not empty and have only blank lines after the first; it returns
    exactly on the empty string and on the strings with a line after the
    first that is not blank; a string without a line boundary that is not
    empty is among the former. *)
Theorem dedent_docstring_raises_ValueError s :
  let rest := drop 1 (splitlines (expandtabs s)) in
  (dedent_docstring s = Raise ValueError
     ↔ s ≠ [] ∧ Forall (λ line, strip line = []) rest) ∧
  ((∃ r, dedent_docstring s = Ok r)
     ↔ s = [] ∨ Exists (λ line, strip line ≠ []) rest) ∧
  (s ≠ [] → Forall (λ c, is_linebreak c = false) s →
   dedent_docstring s = Raise ValueError).
Proof.
  intros rest.
  assert (Hexcl : Forall (λ line, strip line = []) rest →
                  Exists (λ line, strip line ≠ []) rest → False).
  { intros Hall Hex. apply Exists_exists in Hex as (line & Hin & Hline).
    rewrite Forall_forall in Hall. by apply Hline, Hall. }
  split_and!.
  - split.
    + intros Hraise. destruct s as [|c s']; [done|].
      destruct (dedent_docstring_cases (c :: s') ltac:(done))
        as [[Hall _] | [_ [r Hr]]]; [done|].
      rewrite Hr in Hraise. done.
    + intros [Hne Hall].
      destruct (dedent_docstring_cases s Hne) as [[_ Hr] | [Hex _]]; [done|].
      destruct (Hexcl Hall Hex).
  - split.
    + intros [r Hr]. destruct s as [|c s']; [by left | right].
      destruct (dedent_docstring_cases (c :: s') ltac:(done))
        as [[_ Hraise] | [Hex _]]; [|done].
      rewrite Hraise in Hr. done.
    + intros [-> | Hex]; [by exists [] |].
      destruct s as [|c s']; [by exists [] |].
      destruct (dedent_docstring_cases (c :: s') ltac:(done))
        as [[Hall _] | [_ Hr]]; [|done].
      destruct (Hexcl Hall Hex).
  - intros Hne Hflat.
    destruct (dedent_docstring_cases s Hne) as [[_ Hr] | [Hex _]]; [done|].
    exfalso. subst rest. unfold splitlines in Hex.
    rewrite splitlines_from_no_linebreak in Hex.
    + simpl in Hex. by apply Exists_nil in Hex.
    + by apply expandtabs_from_no_linebreak.
    + simpl. by apply expandtabs_from_nonempty.
Qed.

(** The one-line docstring [Summary.] raises. *)
Lemma dedent_docstring_raises_ValueError_witness :
  lit "Summary." ≠ [] ∧
  Forall (λ c, is_linebreak c = false) (lit "Summary.") ∧
  dedent_docstring (lit "Summary.") = Raise ValueError.
Proof.
  assert (H1 : lit "Summary." ≠ []) by discriminate.
  assert (H2 : Forall (λ c, is_linebreak c = false) (lit "Summary."))
    by (repeat constructor).
  split_and!; [exact H1 | exact H2 |].
  exact (proj2 (proj2 (dedent_docstring_raises_ValueError (lit "Summary.")))
           H1 H2).
Defined.

(** ** The claim about targets that are not plain variables *)

(** Induction over the syntax tree, with the elements of a sequence. *)
Lemma node_ind_nested (P : ast.node → Prop) :
  (∀ o id, P (ast.Name o id)) →
  (∀ o value attr, P value → P (ast.Attribute o value attr)) →
  (∀ o elts, Forall P elts → P (ast.Tuple o elts)) →
  (∀ o elts, Forall P elts → P (ast.List_ o elts)) →
  (∀ o value slice, P value → P slice → P (ast.Subscript o value slice)) →
  (∀ o value, P value → P (ast.Starred o value)) →
  (∀ o v, P (ast.Constant o v)) →
  (∀ o func args, P func → Forall P args → P (ast.Call o func args)) →
  (∀ o name, P (ast.arg o name)) →
  ∀ n, P n.
Proof.
  intros HName HAttr HTuple HList HSub HStar HConst HCall Harg.
  fix IH 1. intros [o id | o value attr | o elts | o elts | o value slice
                    | o value | o v | o func args | o name].
  - apply HName.
  - apply HAttr, IH.
  - apply HTuple. induction elts as [|x l IHl]; constructor;
      [apply IH | exact IHl].
  - apply HList. induction elts as [|x l IHl]; constructor;
      [apply IH | exact IHl].
  - apply HSub; apply IH.
  - apply HStar, IH.
  - apply HConst.
  - apply HCall; [apply IH|].
    induction args as [|x l IHl]; constructor; [apply IH | exact IHl].
  - apply Harg.
Qed.

Lemma get_lvar_names_Tuple o elts self :
  get_lvar_names (ast.Tuple o elts) self = lvar_names_loop self [] elts.
Proof.
  simpl. generalize (@nil pystr). induction elts as [|elt elts IH];
    intros names; simpl; [done|].
  destruct (get_lvar_names elt self); simpl; [apply IH | done].
Qed.

Lemma get_lvar_names_List o elts self :
  get_lvar_names (ast.List_ o elts) self = lvar_names_loop self [] elts.
Proof.
  simpl. generalize (@nil pystr). induction elts as [|elt elts IH];
    intros names; simpl; [done|].
  destruct (get_lvar_names elt self); simpl; [apply IH | done].
Qed.

(** A tuple or list of targets gives the names of its elements, in order. *)
Lemma lvar_names_loop_Ok self elts names namess :
  Forall2 (λ elt ns, get_lvar_names elt self = Ok ns) elts namess →
  lvar_names_loop self names elts = Ok (names ++ concat namess).
Proof.
  intros H. revert names. induction H as [|elt ns elts namess Hx _ IH];
    intros names; simpl.
  - by rewrite app_nil_r.
  - rewrite Hx. simpl. rewrite IH. by rewrite app_assoc.
Qed.

(** [get_lvar_names] raises nothing but [TypeError]. *)
Lemma get_lvar_names_raises_TypeError self n e :
  get_lvar_names n self = Raise e → e = TypeError.
Proof.
  revert e. induction n as [ | | o elts IH | o elts IH | | | | | ]
    using node_ind_nested; intros e; try (simpl; congruence).
  - simpl. destruct (ast.eq _ _); congruence.
  - rewrite get_lvar_names_Tuple. generalize (@nil pystr).
    induction IH as [|elt elts Helt _ IHl]; intros names; simpl; [done|].
    destruct (get_lvar_names elt self) eqn:E; simpl; [apply IHl|].
    intros [= <-]. by apply Helt.
  - rewrite get_lvar_names_List. generalize (@nil pystr).
    induction IH as [|elt elts Helt _ IHl]; intros names; simpl; [done|].
    destruct (get_lvar_names elt self) eqn:E; simpl; [apply IHl|].
    intros [= <-]. by apply Helt.
Qed.

Lemma lvar_names_loop_raises self elts names :
  Exists (λ elt, get_lvar_names elt self = Raise TypeError) elts →
  lvar_names_loop self names elts = Raise TypeError.
Proof.
  intros H. revert names. induction H as [elt elts Hx | elt elts _ IH];
    intros names; simpl.
  - by rewrite Hx.
  - destruct (get_lvar_names elt self) as [ns|e] eqn:E; simpl; [apply IH|].
    by rewrite (get_lvar_names_raises_TypeError _ _ _ E).
Qed.

Lemma Exists_Forall_mp {A} (P Q : A → Prop) l :
  Forall (λ x, P x → Q x) l → Exists P l → Exists Q l.
Proof.
  induction 1 as [|x l Hx _ IH]; intros Hex; inversion Hex; subst.
  - left. by apply Hx.
  - right. by apply IH.
Qed.

(** The name extraction raises [TypeError] on a target that is not a plain
    variable. *)
Lemma get_lvar_names_non_plain self n :
  non_plain self n → get_lvar_names n self = Raise TypeError.
Proof.
  induction n as [ | | o elts IH | o elts IH | | | | | ]
    using node_ind_nested; intros Hn; inversion Hn; subst; try done.
  - simpl. by match goal with H : ast.eq _ _ = false |- _ => rewrite H end.
  - rewrite get_lvar_names_Tuple. apply lvar_names_loop_raises.
    eapply Exists_Forall_mp; eauto.
  - rewrite get_lvar_names_List. apply lvar_names_loop_raises.
    eapply Exists_Forall_mp; eauto.
Qed.

(** C6: name extraction raises [TypeError] for every target that is not a
    plain variable, and so for the target of [d[0] = 'x'].  The walker does
    not go on to the statements behind it: [visit] is a stub, and after the
    walk over the module of [d[0] = 'x'] and [y: int = 1] the picker has no
    annotation for [y], no comment and no order number. *)
Theorem visit_records_nothing :
  (∀ self n, non_plain self n → get_lvar_names n self = Raise TypeError) ∧
  get_lvar_names target_d_0 None = Raise TypeError ∧
  let picker :=
    VariableCommentPicker.visit
      (VariableCommentPicker.init lines_d_0_y (lit "utf-8")) module_d_0_y in
  VariableCommentPicker.annotations picker = ∅ ∧
  VariableCommentPicker.comments picker = ∅ ∧
  VariableCommentPicker.deforders picker = ∅.
Proof.
  split; [exact get_lvar_names_non_plain|]. split; [reflexivity|].
  by split_and!.
Qed.

(** ** The claim about the spans of definitions *)


(** * Further properties of the module *)

(** ** Token *)

Lemma py_eq_VInt k x : py_eq (VInt k) x = true ↔ x = VInt k.
Proof.
  destruct x; simpl; try (split; [done | discriminate]).
  rewrite Z.eqb_eq. split; [by intros -> | by intros [= ->]].
Qed.

Lemma py_eq_VStr s x : py_eq (VStr s) x = true ↔ x = VStr s.
Proof.
  destruct x; simpl; try (split; [done | discriminate]).
  rewrite bool_decide_eq_true. split; [by intros -> | by intros [= ->]].
Qed.

Lemma py_eq_VList_cons a l b m :
  py_eq (VList (a :: l)) (VList (b :: m))
  = py_eq a b && py_eq (VList l) (VList m).
Proof. reflexivity. Qed.

Lemma py_eq_pair_iff a b l :
  py_eq (VList [a; b]) (VList l) = true
  ↔ ∃ x y, l = [x; y] ∧ py_eq a x = true ∧ py_eq b y = true.
Proof.
  destruct l as [|x [|y [|z l]]].
  - split; [done | by intros (? & ? & ? & _)].
  - rewrite py_eq_VList_cons. split; [|by intros (? & ? & ? & _)].
    by intros [_ H]%andb_true_iff.
  - rewrite !py_eq_VList_cons.
    change (py_eq (VList []) (VList [])) with true.
    rewrite andb_true_r, andb_true_iff. split.
    + intros [? ?]. by exists x, y.
    + by intros (? & ? & [= <- <-] & ? & ?).
  - rewrite !py_eq_VList_cons.
    change (py_eq (VList []) (VList (z :: l))) with false.
    rewrite !andb_false_r. split; [done | by intros (? & ? & ? & _)].
Qed.

(** X1: the comparison of a token with a list or a tuple returns a truth
    value, the same for both.  It is true exactly when the sequence has two
    elements of which the first equals the kind of the token and the second
    its value, under the equality of Python; a sequence of another length is
    not equal to a token. *)
Theorem Token_eq_sequence (t : Token) (l : list pyval) :
  (∃ b, Token.__eq__ t (VList l) = Ok b ∧ Token.__eq__ t (VTuple l) = Ok b) ∧
  (Token.__eq__ t (VList l) = Ok true
     ↔ ∃ x y, l = [x; y] ∧ py_eq (VInt (Token.kind t)) x = true ∧
              py_eq (VStr (Token.value t)) y = true) ∧
  (length l ≠ 2%nat → Token.__eq__ t (VList l) = Ok false).
Proof.
  unfold Token.__eq__. split_and!; [by eauto | |].
  - split.
    + intros H.
      apply (py_eq_pair_iff (VInt (Token.kind t)) (VStr (Token.value t))).
      congruence.
    + intros H. apply py_eq_pair_iff in H. by rewrite H.
  - intros Hlen. f_equal.
    destruct (py_eq _ (VList l)) eqn:E; [|done].
    by apply py_eq_pair_iff in E as (x & y & -> & _).
Qed.

Lemma Token_eq_raises t x e : Token.__eq__ t x = Raise e → e = ValueError.
Proof. destruct x; simpl; congruence. Qed.

(** X2: [token in condition] for a list or tuple is true when some element
    equals the token and every element before it compares unequal; it is
    false when every element compares unequal; and all it can raise is the
    [ValueError] of [Token.__eq__], which happens when an element of another
    type comes before any equal one. *)
Theorem token_in_spec (t : Token) (l : list pyval) :
  (token_in t l = Ok true
     ↔ ∃ pre x post, l = pre ++ x :: post ∧
         Forall (λ y, Token.__eq__ t y = Ok false) pre ∧
         Token.__eq__ t x = Ok true) ∧
  (token_in t l = Ok false ↔ Forall (λ y, Token.__eq__ t y = Ok false) l) ∧
  (∀ e, token_in t l = Raise e
     ↔ e = ValueError ∧
       ∃ pre o post, l = pre ++ VObj o :: post ∧
         Forall (λ y, Token.__eq__ t y = Ok false) pre).
Proof.
  induction l as [|x l (IHt & IHf & IHe)].
  { simpl. split_and!.
    - split; [done|]. intros (pre & x & post & Hl & _). by destruct pre.
    - split; [constructor | done].
    - intros e. split; [done|]. intros (_ & pre & o & post & Hl & _).
      by destruct pre. }
  cbn [token_in]. destruct (Token.__eq__ t x) as [[|]|e0] eqn:Hx; simpl.
  - split_and!.
    + split; [|done]. intros _. by exists [], x, l.
    + split; [done|]. intros [Hx' _]%Forall_cons. congruence.
    + intros e. split; [done|].
      intros (_ & [|y pre] & o & post & Hl & Hpre); simplify_eq/=.
      apply Forall_cons in Hpre as [? _]. congruence.
  - split_and!.
    + rewrite IHt. split.
      * intros (pre & y & post & -> & Hpre & Hy).
        exists (x :: pre), y, post. split_and!; [done | by constructor | done].
      * intros ([|x' pre] & y & post & Hl & Hpre & Hy); simplify_eq/=;
          [congruence|].
        apply Forall_cons in Hpre as [_ Hpre]. by exists pre, y, post.
    + rewrite IHf. split; [by constructor | by intros [_ ?]%Forall_cons].
    + intros e. rewrite IHe. split.
      * intros (-> & pre & o & post & -> & Hpre). split; [done|].
        exists (x :: pre), o, post. split; [done | by constructor].
      * intros (-> & [|x' pre] & o & post & Hl & Hpre); simplify_eq/=.
        apply Forall_cons in Hpre as [_ Hpre]. split; [done|].
        by exists pre, o, post.
  - pose proof (Token_eq_raises _ _ _ Hx) as ->.
    assert (∃ o, x = VObj o) as [o ->] by (destruct x; simplify_eq/=; eauto).
    split_and!.
    + split; [done|]. intros ([|x' pre] & y & post & Hl & Hpre & Hy);
        simplify_eq/=. apply Forall_cons in Hpre as [? _]. by simplify_eq/=.
    + split; [done|]. intros [? _]%Forall_cons. by simplify_eq/=.
    + intros e. split.
      * intros [= <-]. split; [done|]. by exists [], o, l.
      * by intros [-> _].
Qed.

(** ** TokenProcessor.get_line *)

(** X3: [get_line] gives line [lineno] of the buffers for the line numbers
    from 1 to their length; for the numbers from 0 down it counts from the
    end, so that line 0 is the last line; beyond that it raises
    [IndexError]. *)
Theorem get_line_spec (buffers : list pystr) (lineno : Z) :
  let n := Z.of_nat (length buffers) in
  (1 ≤ lineno ≤ n →
     ∃ line, get_line buffers lineno = Ok line ∧
             buffers !! Z.to_nat (lineno - 1) = Some line) ∧
  (- n < lineno ≤ 0 →
     ∃ line, get_line buffers lineno = Ok line ∧
             buffers !! Z.to_nat (n + lineno - 1) = Some line) ∧
  (get_line buffers lineno = Raise IndexError ↔ lineno ≤ - n ∨ n < lineno) ∧
  (∀ line, get_line (buffers ++ [line]) 0 = Ok line).
Proof.
  intros n. unfold get_line, py_getitem. fold n.
  split_and!.
  - intros H. destruct (lineno - 1 <? 0) eqn:H1; [lia|].
    rewrite H1. simpl. destruct (n <=? lineno - 1) eqn:H2; [lia|].
    destruct (lookup_lt_is_Some_2 buffers (Z.to_nat (lineno - 1)))
      as [line Hline]; [lia|].
    exists line. by rewrite Hline.
  - intros H. destruct (lineno - 1 <? 0) eqn:H1; [|lia].
    destruct (lineno - 1 + n <? 0) eqn:H2; [lia|].
    destruct (n <=? lineno - 1 + n) eqn:H3; [lia|]. simpl.
    replace (lineno - 1 + n) with (n + lineno - 1) by lia.
    destruct (lookup_lt_is_Some_2 buffers (Z.to_nat (n + lineno - 1)))
      as [line Hline]; [lia|].
    exists line. by rewrite Hline.
  - destruct (lineno - 1 <? 0) eqn:H1.
    + destruct (lineno - 1 + n <? 0) eqn:H2; simpl; [split; [lia | done]|].
      destruct (n <=? lineno - 1 + n) eqn:H3; [lia|].
      destruct (lookup_lt_is_Some_2 buffers (Z.to_nat (lineno - 1 + n)))
        as [line Hline]; [lia|].
      rewrite Hline. split; [done | lia].
    + rewrite H1. simpl. destruct (n <=? lineno - 1) eqn:H2;
        [split; [lia | done]|].
      destruct (lookup_lt_is_Some_2 buffers (Z.to_nat (lineno - 1)))
        as [line Hline]; [lia|].
      rewrite Hline. split; [done | lia].
  - intros line.
    set (n' := Z.of_nat (length (buffers ++ [line]))).
    assert (Hn' : n' = n + 1) by (subst n' n; rewrite length_app; simpl; lia).
    clearbody n'. change (0 - 1 <? 0) with true. cbv beta zeta iota.
    destruct (0 - 1 + n' <? 0) eqn:H2; [lia|].
    destruct (n' <=? 0 - 1 + n') eqn:H3; [lia|]. simpl.
    rewrite list_lookup_middle; [done | lia].
Qed.

(** ** get_lvar_names *)

Lemma lvar_names_loop_spec self elts :
  Forall (λ n, get_lvar_names n self
               = if is_plain self n then Ok (names_of n) else Raise TypeError)
    elts →
  ∀ names,
    lvar_names_loop self names elts
    = if forallb (is_plain self) elts
      then Ok (names ++ flat_map names_of elts) else Raise TypeError.
Proof.
  induction 1 as [|n elts Hn _ IH]; intros names; simpl.
  { by rewrite app_nil_r. }
  rewrite Hn. destruct (is_plain self n); simpl; [|done].
  rewrite IH. destruct (forallb _ elts); [|done]. by rewrite app_assoc.
Qed.

(** X4: [get_lvar_names] succeeds exactly on the targets built from names
    and attributes of the object [self] with tuples and lists; it then gives
    their identifiers from left to right, nested sequences flattened.  On any
    other target it raises [TypeError], and it gives no names at all when one
    element of a sequence is such a target. *)
Theorem get_lvar_names_spec (node : ast.node) (self : option ast.node) :
  get_lvar_names node self
  = if is_plain self node then Ok (names_of node) else Raise TypeError.
Proof.
  induction node using node_ind_nested; try reflexivity.
  - rewrite get_lvar_names_Tuple, lvar_names_loop_spec by done. reflexivity.
  - rewrite get_lvar_names_List, lvar_names_loop_spec by done. reflexivity.
Qed.

(** X5: in a tree whose nodes are distinct objects, as [ast.parse] builds
    them, an attribute target yields no name, whatever node is given as
    [self]: the receiver of the attribute is not the same object as the
    parameter. *)
Theorem get_lvar_names_attribute_of_parameter o value attr param :
  NoDup (ast.oids (ast.Attribute o value attr) ++ ast.oids param) →
  get_lvar_names (ast.Attribute o value attr) (Some param) = Raise TypeError ∧
  ∀ o', get_lvar_names (ast.Tuple o' [ast.Attribute o value attr]) (Some param)
        = Raise TypeError.
Proof.
  intros Hnd. pose proof (get_lvar_names_other_object _ _ _ _ Hnd) as H.
  split; [done|]. intros o'. rewrite get_lvar_names_Tuple.
  cbn [lvar_names_loop]. by rewrite H.
Qed.

Lemma get_lvar_names_attribute_of_parameter_witness :
  get_lvar_names target_self_y (Some self_param) = Raise TypeError ∧
  ∀ o', get_lvar_names (ast.Tuple o' [target_self_y]) (Some self_param)
        = Raise TypeError.
Proof.
  apply (get_lvar_names_attribute_of_parameter 2 (ast.Name 3 (lit "self"))
           (lit "y") self_param).
  apply (bool_decide_unpack _). vm_compute. exact I.
Defined.

(** ** TokenProcessor.fetch_token *)

(** X6: after [n] calls of [fetch_token] on a fresh cursor, the current
    token is the [n]-th token of the input and the previous token is the one
    before it; both are [None] where the input has no such token, so that
    the calls behind the end of the input keep returning [None]. *)
Theorem fetch_token_slots (toks : list Token) (n : nat) :
  let self := fetch_tokens n (TokenProcessor_init toks) in
  tokens self = drop n toks ∧
  current self = (if decide (n = 0)%nat then None else toks !! (n - 1)%nat) ∧
  previous self = (if decide (n ≤ 1)%nat then None else toks !! (n - 2)%nat) ∧
  fst (fetch_token self) = toks !! n.
Proof.
  assert (Hslots : ∀ n,
    let self := fetch_tokens n (TokenProcessor_init toks) in
    tokens self = drop n toks ∧
    current self = (if decide (n = 0)%nat then None else toks !! (n - 1)%nat) ∧
    previous self
      = (if decide (n ≤ 1)%nat then None else toks !! (n - 2)%nat)).
  { clear n. induction n as [|n (Ht & Hc & Hp)]; [done|].
    change (fetch_tokens (S n) (TokenProcessor_init toks))
      with (fetch_token (fetch_tokens n (TokenProcessor_init toks))).2.
    set (self := fetch_tokens n _) in *. unfold fetch_token.
    rewrite Ht. pose proof (lookup_drop toks n 0) as Hl.
    rewrite Nat.add_0_r in Hl.
    rewrite (decide_False (P := (S n = 0)%nat)) by lia.
    replace (S n - 1)%nat with n by lia.
    assert (Hprev : (if decide (S n ≤ 1)%nat then None
                     else toks !! (S n - 2)%nat) = current self).
    { rewrite Hc. destruct n as [|n]; [done|].
      rewrite decide_False by lia.
      rewrite (decide_False (P := (S n = 0)%nat)) by lia.
      by replace (S (S n) - 2)%nat with (S n - 1)%nat by lia. }
    rewrite Hprev.
    destruct (drop n toks) as [|t rest] eqn:Hd;
      cbn [snd tokens current previous].
    - split_and!; [|by rewrite <- Hl | done].
      by rewrite <- (Nat.add_1_r n), <- drop_drop, Hd.
    - split_and!; [|by rewrite <- Hl | done].
      by rewrite <- (Nat.add_1_r n), <- drop_drop, Hd. }
  intros self. destruct (Hslots n) as (Ht & Hc & Hp).
  split_and!; [done..|].
  subst self. unfold fetch_token. rewrite Ht.
  pose proof (lookup_drop toks n 0) as Hl. rewrite Nat.add_0_r in Hl.
  by destruct (drop n toks).
Qed.

(** ** TokenProcessor.fetch_until *)

Lemma token_in_raises t l e : token_in t l = Raise e → e = ValueError.
Proof.
  induction l as [|x l IH]; [done|]. cbn [token_in].
  destruct (Token.__eq__ t x) as [[|]|e0] eqn:Hx; simpl; [done | done |].
  intros [= <-]. by apply Token_eq_raises in Hx.
Qed.

Lemma stops_raises cond t e :
  stops cond t = Raise e → e = ValueError ∧ ∃ l, cond = CSeq l.
Proof.
  destruct cond as [s|l|p|k]; simpl; try done.
  intros H%token_in_raises. eauto.
Qed.

Lemma fetch_until_loop_raises fuel :
  ∀ cond acc self e,
    fetch_until_loop fuel cond acc self = Raised e →
    e = ValueError ∧ ∃ l, cond = CSeq l.
Proof.
  induction fuel as [|fuel IH]; intros cond acc self e; [done|].
  rewrite fetch_until_loop_S.
  destruct (fetch_token self) as [[token|] self1]; [|done].
  destruct (stops cond token) as [[|]|e0] eqn:Hs; [done | |].
  - destruct (closer token) as [cl|]; [|by apply IH].
    destruct (fetch_until_loop fuel (CStr cl) [] self1) as [[inner self2]|e1|]
      eqn:Hin; [by apply IH | | done].
    by apply fetch_until_loop_safe in Hin; [|apply safe_CStr].
  - intros [= <-]. by apply stops_raises in Hs.
Qed.

(** What a finished scan has consumed: it stopped at a token [tc], after a
    run [body] of which the result is a sublist; or it reached the end of the
    tokens. *)
Lemma fetch_until_loop_consumed fuel :
  ∀ cond acc self r self',
    fetch_until_loop fuel cond acc self = Done (r, self') →
    ∃ inner, r = acc ++ inner ∧
      ((∃ body tc, tokens self = body ++ tc :: tokens self' ∧
                   stops cond tc = Ok true ∧ current self' = Some tc ∧
                   inner `sublist_of` body)
       ∨ (tokens self' = [] ∧ current self' = None ∧
          inner `sublist_of` tokens self)).
Proof.
  induction fuel as [|fuel IH]; intros cond acc self r self'; [done|].
  rewrite fetch_until_loop_S.
  destruct (fetch_token self) as [[token|] self1] eqn:Hf;
    apply fetch_token_tokens in Hf.
  2:{ destruct Hf as (Ht & Ht1 & Hc1). intros [= <- <-].
      exists []. rewrite app_nil_r. split; [done|]. right.
      split_and!; [done | done | apply sublist_nil_l]. }
  destruct Hf as [Ht Hc1].
  destruct (stops cond token) as [[|]|e0] eqn:Hs; [| |done].
  { intros [= <- <-]. exists []. rewrite app_nil_r. split; [done|]. left.
    exists [], token. split_and!; [done | done | done | apply sublist_nil_l]. }
  assert (Hstep : ∀ c1 i1 self2,
    tokens self1 = c1 ++ tokens self2 → i1 `sublist_of` c1 →
    fetch_until_loop fuel cond ((acc ++ [token]) ++ i1) self2
      = Done (r, self') →
    ∃ inner, r = acc ++ inner ∧
      ((∃ body tc, tokens self = body ++ tc :: tokens self' ∧
                   stops cond tc = Ok true ∧ current self' = Some tc ∧
                   inner `sublist_of` body)
       ∨ (tokens self' = [] ∧ current self' = None ∧
          inner `sublist_of` tokens self))).
  { intros c1 i1 self2 Hc Hi1 Hrun.
    destruct (IH _ _ _ _ _ Hrun) as (i2 & -> & Hcase).
    exists (token :: i1 ++ i2). split; [by rewrite <- !app_assoc|].
    destruct Hcase as [(body & tc & Ht2 & Hstop & Hcur & Hi2) | (Ht2 & Hcur & Hi2)].
    - left. exists (token :: c1 ++ body), tc. split_and!; [|done|done|].
      + rewrite Ht, Hc, Ht2. simpl. by rewrite <- app_assoc.
      + apply sublist_skip. by apply sublist_app.
    - right. split_and!; [done | done |].
      rewrite Ht, Hc. apply sublist_skip. by apply sublist_app. }
  destruct (closer token) as [cl|].
  - destruct (fetch_until_loop fuel (CStr cl) [] self1) as [[inner self2]| |]
      eqn:Hin; [|done..].
    destruct (IH _ _ _ _ _ Hin) as (i1 & -> & Hcase). simpl.
    destruct Hcase as [(body & tc & Ht2 & _ & _ & Hi1) | (Ht2 & _ & Hi1)].
    + apply (Hstep (body ++ [tc])); [by rewrite <- app_assoc|].
      by apply sublist_inserts_r.
    + apply (Hstep (tokens self1)); [by rewrite Ht2, app_nil_r | done].
  - intros Hrun. apply (Hstep [] [] self1); [done | done |].
    by rewrite app_nil_r.
Qed.

(** X8: when [fetch_until] returns, the tokens it leaves are a tail of the
    tokens it was given, and its result is a sublist, in order, of the
    tokens it consumed.  Either it stopped at a token that the condition
    matches, which is then the current token and is not part of the result,
    or it reached the end of the tokens and the current token is [None]. *)
Theorem fetch_until_consumed cond self r self' :
  fetch_until cond self = Done (r, self') →
  (∃ body tc, tokens self = body ++ tc :: tokens self' ∧
              stops cond tc = Ok true ∧ current self' = Some tc ∧
              r `sublist_of` body)
  ∨ (tokens self' = [] ∧ current self' = None ∧
     r `sublist_of` tokens self).
Proof.
  intros H. by destruct (fetch_until_loop_consumed _ _ _ _ _ _ H) as (? & -> & ?).
Qed.

Lemma fetch_until_consumed_witness :
  ∃ self',
    (∃ body tc,
        tokens_call_args = body ++ tc :: tokens self' ∧
        stops (CStr (lit ",")) tc = Ok true ∧ current self' = Some tc ∧
        take 5 tokens_call_args `sublist_of` body)
    ∨ (tokens self' = [] ∧ current self' = None ∧
       take 5 tokens_call_args `sublist_of` tokens_call_args).
Proof.
  eexists.
  refine (fetch_until_consumed (CStr (lit ","))
            (TokenProcessor_init tokens_call_args) _ _ _).
  vm_compute. reflexivity.
Defined.




(** ** AfterCommentParser.fetch_rvalue *)

Lemma fetch_rvalue_loop_run toks r rest :
  rvalue toks r rest →
  ∀ fuel acc self,
    tokens self = toks → (length toks < fuel)%nat →
    ∃ self', fetch_rvalue_loop fuel acc self = Done (acc ++ r, self') ∧
             tokens self' = rest.
Proof.
  induction 1 as [ | t rest Ht | t body r rest Ht Hc _ IH
                 | t cl inner iacc tc next body r rest Ht Hc Hsc Hv _ IH
                 | t cl inner iacc tc Ht Hc Hsc Hv
                 | t cl inner iacc Ht Hc Hex ];
    intros fuel acc self Et Hlt; (destruct fuel as [|fuel]; [lia|]);
    cbn [fetch_rvalue_loop].
  - destruct (fetch_token_nil _ Et) as (self1 & -> & Ht1 & _).
    exists self1. by rewrite app_nil_r.
  - destruct (fetch_token_cons _ _ _ Et) as (self1 & -> & Ht1 & _).
    unfold ends_rvalue in Ht. rewrite Ht. exists self1. by rewrite app_nil_r.
  - destruct (fetch_token_cons _ _ _ Et) as (self1 & -> & Ht1 & _).
    unfold ends_rvalue in Ht. rewrite Ht, Hc.
    destruct (IH fuel (acc ++ [Some t]) self1 Ht1) as (self' & -> & ?).
    { simpl in Hlt. lia. }
    exists self'. by rewrite <- app_assoc.
  - destruct (fetch_token_cons _ _ _ Et) as (self1 & -> & Ht1 & _).
    unfold ends_rvalue in Ht. rewrite Ht, Hc.
    destruct (fetch_until_scanned _ _ _ Hsc self1 tc (next :: body) Ht1
                (stops_CStr _ _ Hv)) as (self2 & -> & Ht2 & _).
    destruct (fetch_token_cons _ _ _ Ht2) as (self3 & -> & Ht3 & _).
    destruct (IH fuel (acc ++ [Some t] ++ (Some <$> iacc) ++ [Some next])
                self3 Ht3) as (self' & -> & ?).
    { simpl in Hlt. rewrite length_app in Hlt. simpl in Hlt. lia. }
    exists self'. split; [|done]. do 2 f_equal.
    simpl. rewrite <- !app_assoc. simpl. by rewrite <- app_assoc.
  - destruct (fetch_token_cons _ _ _ Et) as (self1 & -> & Ht1 & _).
    unfold ends_rvalue in Ht. rewrite Ht, Hc.
    destruct (fetch_until_scanned _ _ _ Hsc self1 tc [] Ht1
                (stops_CStr _ _ Hv)) as (self2 & -> & Ht2 & _).
    destruct (fetch_token_nil _ Ht2) as (self3 & -> & Ht3 & _).
    destruct fuel as [|fuel].
    { simpl in Hlt. rewrite length_app in Hlt. simpl in Hlt. lia. }
    cbn [fetch_rvalue_loop].
    destruct (fetch_token_nil _ Ht3) as (self4 & -> & Ht4 & _).
    by exists self4.
  - destruct (fetch_token_cons _ _ _ Et) as (self1 & -> & Ht1 & _).
    unfold ends_rvalue in Ht. rewrite Ht, Hc.
    destruct (fetch_until_exhausts _ _ _ Hex self1 Ht1)
      as (self2 & -> & Ht2 & _).
    destruct (fetch_token_nil _ Ht2) as (self3 & -> & Ht3 & _).
    destruct fuel as [|fuel].
    { cbn [fetch_rvalue_loop]. simpl in Hlt. lia. }
    cbn [fetch_rvalue_loop].
    destruct (fetch_token_nil _ Ht3) as (self4 & -> & Ht4 & _).
    by exists self4.
Qed.

Lemma fetch_rvalue_run toks r rest self :
  rvalue toks r rest → tokens self = toks →
  ∃ self', fetch_rvalue self = Done (r, self') ∧ tokens self' = rest.
Proof.
  intros Hrun Et. unfold fetch_rvalue.
  apply (fetch_rvalue_loop_run _ _ _ Hrun _ [] self Et). rewrite Et. lia.
Qed.

Lemma rvalue_flat_prefix pre body r rest :
  Forall (λ t, ends_rvalue t = false ∧ closer t = None) pre →
  rvalue body r rest →
  rvalue (pre ++ body) ((Some <$> pre) ++ r) rest.
Proof.
  intros Hpre Hrun. induction Hpre as [|t pre [Ht Hc] _ IH]; [done|].
  simpl. by apply rvalue_token.
Qed.


(** X11: without brackets, the right-hand side that [fetch_rvalue] returns
    ends before the first [,] or [)], which is consumed: of [1, 2] it is
    [1]. *)
Theorem fetch_rvalue_stops_at_separator rv term rest self :
  Forall (λ t, ends_rvalue t = false ∧ closer t = None) rv →
  ends_rvalue term = true →
  tokens self = rv ++ term :: rest →
  ∃ self', fetch_rvalue self = Done (Some <$> rv, self') ∧
           tokens self' = rest.
Proof.
  intros Hrv Hterm Et.
  apply (fetch_rvalue_run (rv ++ term :: rest)); [|done].
  rewrite <- (app_nil_r (Some <$> rv)).
  apply rvalue_flat_prefix; [done | by constructor].
Qed.

Lemma fetch_rvalue_stops_at_separator_witness :
  ∃ self',
    fetch_rvalue (TokenProcessor_init (drop 9 tokens_self_y))
    = Done (Some <$> take 1 (drop 9 tokens_self_y), self') ∧
    tokens self' = drop 11 tokens_self_y.
Proof.
  refine (fetch_rvalue_stops_at_separator (take 1 (drop 9 tokens_self_y))
            (tok OP "," 1 22 "self.y = compute(a, (b, c), [d])  #: note")
            (drop 11 tokens_self_y)
            (TokenProcessor_init (drop 9 tokens_self_y)) _ _ _);
    [| reflexivity | reflexivity].
  repeat constructor.
Defined.

(** X12: when the tokens end while a bracket of the right-hand side is
    open, as for the mismatched [f(a]], the list that [fetch_rvalue] returns
    ends with [None]: after the scan of the group the next token is appended
    without a look at it, and there is none. *)
Theorem fetch_rvalue_open_group pre t cl inner iacc self :
  Forall (λ t, ends_rvalue t = false ∧ closer t = None) pre →
  ends_rvalue t = false → closer t = Some cl →
  exhausts (CStr cl) inner iacc →
  tokens self = pre ++ t :: inner →
  ∃ self', fetch_rvalue self
           = Done ((Some <$> pre ++ t :: iacc) ++ [None], self') ∧
           tokens self' = [].
Proof.
  intros Hpre Ht Hc Hex Et.
  apply (fetch_rvalue_run (pre ++ t :: inner)); [|done].
  rewrite fmap_app, <- app_assoc. apply rvalue_flat_prefix; [done|].
  simpl. by apply rvalue_open with cl.
Qed.

Lemma fetch_rvalue_open_group_witness :
  ∃ self',
    fetch_rvalue (TokenProcessor_init (drop 2 tokens_unclosed))
    = Done ((Some <$> drop 2 tokens_unclosed) ++ [None], self') ∧
    tokens self' = [].
Proof.
  refine (fetch_rvalue_open_group
            (take 1 (drop 2 tokens_unclosed)) (tok OP "(" 1 5 "x = f(a]")
            (lit ")") (drop 4 tokens_unclosed) (drop 4 tokens_unclosed)
            (TokenProcessor_init (drop 2 tokens_unclosed)) _ _ _ _ _);
    [| reflexivity | reflexivity | | reflexivity].
  - repeat constructor.
  - repeat (apply exhausts_token; [reflexivity | reflexivity |]). constructor.
Defined.



(** *** What the cursor leaves *)

Lemma fetch_token_suffix self o self1 :
  fetch_token self = (o, self1) → tokens self1 `suffix_of` tokens self.
Proof.
  intros H%fetch_token_tokens. destruct o.
  - destruct H as [-> _]. by apply suffix_cons_r.
  - by destruct H as (-> & -> & _).
Qed.

Lemma fetch_until_suffix cond self r self' :
  fetch_until cond self = Done (r, self') →
  tokens self' `suffix_of` tokens self.
Proof.
  intros H.
  destruct (fetch_until_loop_consumed _ _ _ _ _ _ H)
    as (? & _ & [(body & tc & -> & _) | (-> & _)]).
  - exists (body ++ [tc]). by rewrite <- app_assoc.
  - apply suffix_nil.
Qed.

Lemma fetch_rvalue_loop_suffix fuel :
  ∀ acc self r self',
    fetch_rvalue_loop fuel acc self = Done (r, self') →
    tokens self' `suffix_of` tokens self.
Proof.
  induction fuel as [|fuel IH]; intros acc self r self' H; [done|].
  cbn [fetch_rvalue_loop] in H.
  destruct (fetch_token self) as [[token|] self1] eqn:Hf;
    apply fetch_token_suffix in Hf; [|by simplify_eq].
  destruct (_ || _); [by simplify_eq|].
  destruct (closer token) as [cl|].
  - destruct (fetch_until (CStr cl) self1) as [[inner self2]| |] eqn:Hu;
      [|done..].
    apply fetch_until_suffix in Hu.
    destruct (fetch_token self2) as [next self3] eqn:Hf2.
    apply fetch_token_suffix in Hf2. apply IH in H.
    by repeat (etrans; [eassumption|]).
  - apply IH in H. by etrans.
Qed.

Lemma skip_lvalue_suffix fuel :
  ∀ self b self',
    skip_lvalue fuel self = Done (b, self') →
    tokens self' `suffix_of` tokens self.
Proof.
  induction fuel as [|fuel IH]; intros self b self' H; [done|].
  cbn [skip_lvalue] in H.
  destruct (fetch_token self) as [[token|] self1] eqn:Hf;
    apply fetch_token_suffix in Hf; [|by simplify_eq].
  destruct (_ || _); [by simplify_eq|].
  apply IH in H. by etrans.
Qed.

Lemma elem_of_suffix {A} (x : A) l1 l2 :
  l1 `suffix_of` l2 → x ∈ l1 → x ∈ l2.
Proof. intros [k ->] ?. apply elem_of_app. by right. Qed.


(** ** AfterCommentParser.parse *)

(** What [parse] leaves: the comment as it was, or the text of a comment
    token of the input that starts with [#:]. *)
Lemma AfterCommentParser_parse_inv self :
  ∃ self', AfterCommentParser_parse self = Done self' ∧
    tokens (processor self') `suffix_of` tokens (processor self) ∧
    (comment self' = comment self
     ∨ ∃ t, t ∈ tokens (processor self) ∧ is_doc_comment t = true ∧
            comment self' = Some (strip (drop 2 (Token.value t)))).
Proof.
  unfold AfterCommentParser_parse.
  destruct (skip_lvalue_total (S (length (tokens (processor self))))
              (processor self) ltac:(lia)) as (b & self1 & Hs).
  rewrite Hs. apply skip_lvalue_suffix in Hs. destruct b; [|by eauto].
  unfold fetch_rvalue.
  destruct (fetch_rvalue_loop_total (S (length (tokens self1))) [] self1
              ltac:(lia)) as (r & self2 & Hr & _).
  rewrite Hr. apply fetch_rvalue_loop_suffix in Hr.
  assert (Hs2 : tokens self2 `suffix_of` tokens (processor self)) by by etrans.
  destruct r as [|x r]; [by eauto|].
  unfold after_rvalue. cbn [processor comment].
  destruct (fetch_token self2) as [[token|] self3] eqn:Hf.
  2:{ apply fetch_token_suffix in Hf. eexists. split; [done|].
      split; [by etrans | by left]. }
  pose proof (fetch_token_suffix _ _ _ Hf) as Hs3.
  apply fetch_token_tokens in Hf as [Ht _].
  destruct (_ && _) eqn:Hdoc.
  - eexists. split; [done|]. split; [by etrans|]. right. exists token.
    split_and!; [|done..]. apply (elem_of_suffix _ _ _ Hs2).
    rewrite Ht. by left.
  - destruct (fetch_until_safe (CInt NEWLINE) self3 (safe_CInt _))
      as (? & self4 & Hu & _).
    rewrite Hu. apply fetch_until_suffix in Hu.
    eexists. split; [done|]. split; [|by left].
    by repeat (etrans; [eassumption|]).
Qed.







(** *** The text of the comment *)

Lemma lstrip_head s x r : lstrip s = x :: r → is_space x = false.
Proof.
  induction s as [|c s IH]; simpl; [done|].
  destruct (is_space c) eqn:E; [done|]. by intros [= <- <-].
Qed.

Lemma lstrip_suffix s : lstrip s `suffix_of` s.
Proof.
  induction s as [|c s IH]; simpl; [done|].
  destruct (is_space c); [by apply suffix_cons_r | done].
Qed.

Lemma last_rev {A} (l : list A) : last (rev l) = head l.
Proof. destruct l; simpl; [done | by rewrite last_snoc]. Qed.

Lemma head_rev {A} (l : list A) : head (rev l) = last l.
Proof. rewrite <- (rev_involutive l) at 2. by rewrite last_rev. Qed.

Lemma last_suffix {A} (l1 l2 : list A) x :
  l1 `suffix_of` l2 → last l1 = Some x → last l2 = Some x.
Proof.
  intros [k ->] H. destruct l1 as [|y l1] using rev_ind; [done|].
  rewrite last_snoc in H. by rewrite app_assoc, last_snoc.
Qed.

Lemma rstrip_last s x : last (rstrip s) = Some x → is_space x = false.
Proof.
  unfold rstrip. rewrite last_rev.
  destruct (lstrip (rev s)) as [|y r] eqn:E; [done|].
  intros [= <-]. by apply lstrip_head in E.
Qed.

Lemma strip_head s x : head (strip s) = Some x → is_space x = false.
Proof.
  unfold strip, rstrip. rewrite head_rev. intros H.
  apply (last_suffix _ _ _ (lstrip_suffix _)) in H.
  rewrite last_rev in H.
  destruct (lstrip s) as [|y r] eqn:E; [done|].
  injection H as <-. by apply lstrip_head in E.
Qed.

(** X19: a comment that [parse] finds has no whitespace at its start and
    none at its end. *)
Theorem scan_comment_stripped toks c :
  scan_comment toks = Done (Some c) →
  (∀ x, head c = Some x → is_space x = false) ∧
  (∀ x, last c = Some x → is_space x = false).
Proof.
  unfold scan_comment.
  destruct (AfterCommentParser_parse_inv (AfterCommentParser_init toks))
    as (self' & -> & _ & Hc).
  intros [= Hcm]. rewrite Hcm in Hc.
  destruct Hc as [Hc | (t & _ & _ & [= ->])]; [done|].
  split; intros x; [apply strip_head | apply rstrip_last].
Qed.

Lemma scan_comment_stripped_witness :
  (∀ x, head (lit "doc") = Some x → is_space x = false) ∧
  (∀ x, last (lit "doc") = Some x → is_space x = false).
Proof.
  apply (scan_comment_stripped tokens_x_eq_1_comma). vm_compute. reflexivity.
Defined.

(** ** dedent_docstring *)

Lemma lstrip_app line :
  ∃ ws, line = ws ++ lstrip line ∧ Forall (λ c, is_space c = true) ws.
Proof.
  induction line as [|c line (ws & Hl & Hws)]; [by exists []|]. simpl.
  destruct (is_space c) eqn:E; [|by exists []].
  exists (c :: ws). split; [simpl; by f_equal | by constructor].
Qed.

Lemma indentation_length line ws :
  line = ws ++ lstrip line → indentation line = Z.of_nat (length ws).
Proof.
  intros H. unfold indentation. rewrite H at 1. rewrite length_app. lia.
Qed.

Lemma lstrip_nil s : lstrip s = [] → Forall (λ c, is_space c = true) s.
Proof.
  intros H. destruct (lstrip_app s) as (ws & Hs & Hws).
  rewrite H, app_nil_r in Hs. by subst.
Qed.

Lemma strip_nil s : strip s = [] → Forall (λ c, is_space c = true) s.
Proof.
  unfold strip, rstrip. intros H.
  assert (Hrev : lstrip (rev (lstrip s)) = []).
  { apply (f_equal (@rev N)) in H. by rewrite rev_involutive in H. }
  apply lstrip_nil in Hrev.
  destruct (lstrip s) as [|y r] eqn:E; [by apply lstrip_nil|].
  apply lstrip_head in E.
  assert (Hy : y ∈ rev (y :: r)).
  { apply list_elem_of_In, in_rev. rewrite rev_involutive. by left. }
  rewrite Forall_forall in Hrev. specialize (Hrev _ Hy). congruence.
Qed.

Lemma foldr_min_spec x l :
  foldr Z.min x l ∈ x :: l ∧ Forall (λ y, foldr Z.min x l ≤ y) (x :: l).
Proof.
  induction l as [|y l [Hin Hall]]; simpl.
  { split; [by left | constructor; [lia | constructor]]. }
  apply Forall_cons in Hall as [Hx Hall]. split.
  - destruct (Z.min_spec y (foldr Z.min x l)) as [[_ ->] | [_ ->]].
    + right. by left.
    + apply elem_of_cons in Hin as [-> | Hin]; [by left | by do 2 right].
  - constructor; [lia|]. constructor; [lia|].
    eapply Forall_impl; [exact Hall|]. simpl. intros; lia.
Qed.

Lemma py_min_spec l m :
  py_min l = Ok m → m ∈ l ∧ Forall (λ y, m ≤ y) l.
Proof.
  destruct l as [|x l]; [done|]. intros [= <-]. apply foldr_min_spec.
Qed.

(** X20: when [dedent_docstring] returns, what it cut from the front of the
    lines after the first is whitespace only, the same number of characters
    from every line: the least indentation of the lines that are not blank,
    which is not negative.  Some such line then starts in the first
    column. *)
Theorem dedent_docstring_cuts_whitespace s r :
  s ≠ [] → dedent_docstring s = Ok r →
  ∃ first rest indent,
    splitlines (expandtabs s) = first :: rest ∧
    0 ≤ indent ∧
    Forall (λ line, Forall (λ c, is_space c = true)
                      (take (Z.to_nat indent) line)) rest ∧
    Forall (λ line, strip line ≠ [] → indent ≤ indentation line) rest ∧
    Exists (λ line, strip line ≠ [] ∧ indentation line = indent) rest ∧
    r = join_lines (pop_blank_head (pop_blank_tail
          (strip first
           :: ((λ line, rstrip (drop (Z.to_nat indent) line)) <$> rest)))).
Proof.
  intros Hs. unfold dedent_docstring. destruct s as [|c0 s0]; [done|].
  set (lines := splitlines (expandtabs (c0 :: s0))).
  destruct (py_min _) as [indent|e] eqn:Hmin; [|done].
  apply py_min_spec in Hmin as [Hin Hle].
  apply list_elem_of_fmap in Hin as (l0 & Hl0 & Hin0).
  apply list_elem_of_filter in Hin0 as [Hnb0 Hin0].
  destruct lines as [|first rest]; [by apply elem_of_nil in Hin0|].
  simpl in *. assert (Hind : 0 ≤ indent).
  { destruct (lstrip_app l0) as (ws & Hws & _).
    rewrite Hl0, (indentation_length _ _ Hws). lia. }
  destruct (indent <? 0) eqn:Hneg; [lia|]. intros [= <-].
  exists first, rest, indent. split_and!; [done | done | | | | done].
  - apply Forall_forall. intros line Hline.
    destruct (decide (strip line = [])) as [Hb|Hnb].
    { apply Forall_take. by apply strip_nil. }
    destruct (lstrip_app line) as (ws & Hws & Hall).
    assert (indent ≤ indentation line).
    { rewrite Forall_forall in Hle. apply Hle.
      apply list_elem_of_fmap. exists line. split; [done|].
      by apply list_elem_of_filter. }
    rewrite (indentation_length _ _ Hws) in *.
    rewrite Hws, take_app_le by lia. by apply Forall_take.
  - apply Forall_forall. intros line Hline Hnb.
    rewrite Forall_forall in Hle. apply Hle.
    apply list_elem_of_fmap. exists line. split; [done|].
    by apply list_elem_of_filter.
  - apply Exists_exists. by exists l0.
Qed.

Lemma dedent_docstring_cuts_whitespace_witness :
  ∃ first rest indent,
    splitlines (expandtabs (lit "a" ++ 10%N :: lit "  b" ++ 10%N :: lit "    c"))
    = first :: rest ∧
    0 ≤ indent ∧
    Forall (λ line, Forall (λ c, is_space c = true)
                      (take (Z.to_nat indent) line)) rest ∧
    Forall (λ line, strip line ≠ [] → indent ≤ indentation line) rest ∧
    Exists (λ line, strip line ≠ [] ∧ indentation line = indent) rest ∧
    lit "a" ++ 10%N :: lit "b" ++ 10%N :: lit "  c"
    = join_lines (pop_blank_head (pop_blank_tail
        (strip first
         :: ((λ line, rstrip (drop (Z.to_nat indent) line)) <$> rest)))).
Proof.
  apply dedent_docstring_cuts_whitespace; [discriminate|].
  vm_compute. reflexivity.
Defined.

Lemma pop_blank_tail_last L l : last (pop_blank_tail L) = Some l → l ≠ [].
Proof.
  induction L as [|line L IH]; [done|]. simpl.
  destruct (pop_blank_tail L) as [|x rest'] eqn:E.
  - destruct line; [done|]. by intros [= <-].
  - intros H. apply IH. by destruct line.
Qed.

Lemma pop_blank_tail_Forall P L :
  Forall P L → Forall P (pop_blank_tail L).
Proof.
  induction 1 as [|line L Hl _ IH]; [done|]. simpl.
  destruct (pop_blank_tail L) as [|x rest']; [|by constructor].
  destruct line; [done | by constructor].
Qed.

Lemma pop_blank_head_suffix L : pop_blank_head L `suffix_of` L.
Proof.
  induction L as [|line L IH]; [done|]. simpl.
  destruct line; [by apply suffix_cons_r | done].
Qed.

Lemma join_lines_last L l :
  last L = Some l → l ≠ [] → last (join_lines L) = last l.
Proof.
  induction L as [|line L IH]; [done|]. intros Hlast Hl.
  destruct L as [|line2 L]; [by simplify_eq/=|].
  change (join_lines (line :: line2 :: L))
    with (line ++ 10%N :: join_lines (line2 :: L)).
  specialize (IH Hlast Hl).
  destruct (last l) as [x|] eqn:Hx; [|by destruct l using rev_ind;
                                        [|rewrite last_snoc in Hx]].
  rewrite (last_suffix (join_lines (line2 :: L)) _ x); [done | | done].
  exists (line ++ [10%N]). by rewrite <- app_assoc.
Qed.

(** X21: the text that [dedent_docstring] returns does not end with
    whitespace: it has no line feed and no blank at its end. *)
Theorem dedent_docstring_no_trailing_whitespace s r x :
  s ≠ [] → dedent_docstring s = Ok r →
  last r = Some x → is_space x = false.
Proof.
  intros Hs. unfold dedent_docstring. destruct s as [|c0 s0]; [done|].
  set (lines := splitlines (expandtabs (c0 :: s0))).
  destruct (py_min _) as [indent|e]; [|done].
  destruct lines as [|first rest]; [done|].
  change (Ok (join_lines (pop_blank_head (pop_blank_tail
            (strip first
             :: ((λ line, rstrip (slice_from
                                    (if indent <? 0 then 0 else indent) line))
                   <$> rest))))) = Ok r →
          last r = Some x → is_space x = false).
  set (out := strip first :: _). intros [= <-] Hx.
  change (last (join_lines (pop_blank_head (pop_blank_tail out))) = Some x)
    in Hx.
  assert (Hout : Forall (λ l, ∀ y, last l = Some y → is_space y = false) out).
  { subst out. constructor; [intros y; apply rstrip_last|].
    apply Forall_fmap, Forall_forall. intros line _ y. apply rstrip_last. }
  apply pop_blank_tail_Forall in Hout.
  destruct (last (pop_blank_head (pop_blank_tail out))) as [l|] eqn:Hl.
  2:{ destruct (pop_blank_head _) as [|? ?] using rev_ind; [done|].
      by rewrite last_snoc in Hl. }
  pose proof (last_suffix _ _ _ (pop_blank_head_suffix _) Hl) as Hl'.
  pose proof (pop_blank_tail_last _ _ Hl') as Hne.
  rewrite (join_lines_last _ _ Hl Hne) in Hx.
  rewrite Forall_forall in Hout. apply (Hout l); [|done].
  apply list_elem_of_lookup. rewrite last_lookup in Hl'. eauto.
Qed.

Lemma dedent_docstring_no_trailing_whitespace_witness :
  dedent_docstring
    (lit "a" ++ 10%N :: lit "  b" ++ 10%N :: lit "    c  " ++ [10%N])
  = Ok (lit "a" ++ 10%N :: lit "b" ++ 10%N :: lit "  c") ∧
  is_space 99%N = false.
Proof.
  split; [vm_compute; reflexivity|].
  apply (dedent_docstring_no_trailing_whitespace
           (lit "a" ++ 10%N :: lit "  b" ++ 10%N :: lit "    c  " ++ [10%N])
           (lit "a" ++ 10%N :: lit "b" ++ 10%N :: lit "  c"));
    [discriminate | vm_compute; reflexivity | reflexivity].
Defined.


(** * The cursor over a generator that may raise *)















(** ** The claim about a bracket that is not closed *)




(** ** Further properties of the cursor over a generator *)

Lemma generator_fetch_token_Ok self o self1 :
  Generator.fetch_token self = Ok (o, self1) →
  tokens (Generator.cursor self1) `suffix_of` tokens (Generator.cursor self) ∧
  Generator.ending self1 = Generator.ending self ∧
  match o with
  | Some token =>
      tokens (Generator.cursor self)
      = token :: tokens (Generator.cursor self1)
  | None => True
  end.
Proof.
  unfold Generator.fetch_token.
  destruct (tokens (Generator.cursor self)) as [|token rest] eqn:Ht.
  - destruct (Generator.ending self) eqn:He; [done|].
    intros [= <- <-]. simpl. by split_and!.
  - intros [= <- <-]. simpl. split_and!; [by apply suffix_cons_r | done..].
Qed.

Lemma generator_fetch_token_Raise self e :
  Generator.fetch_token self = Raise e → Generator.ending self = Some e.
Proof.
  unfold Generator.fetch_token.
  destruct (tokens (Generator.cursor self)); [|done].
  by destruct (Generator.ending self) as [e'|]; [intros [= ->]|].
Qed.

Lemma generator_stops_Raise cond token e :
  Generator.stops cond token = Raise e →
  (e = ValueError ∧ ∃ l, cond = Generator.CSeq l)
  ∨ (∃ p, cond = Generator.CCall p ∧ p token = Raise e).
Proof.
  destruct cond as [s|l|p|k]; simpl; try done.
  - intros ->%token_in_raises. left. eauto.
  - intros H. right. eauto.
Qed.

Lemma generator_fetch_until_loop_outcomes fuel :
  ∀ frames cond acc self,
    (length (tokens (Generator.cursor self)) < fuel)%nat →
    match Generator.fetch_until_loop fuel frames cond acc self with
    | Done (r, self') =>
        tokens (Generator.cursor self')
          `suffix_of` tokens (Generator.cursor self) ∧
        Generator.ending self' = Generator.ending self
    | Raised e =>
        Generator.ending self = Some e ∨ e = RecursionError
        ∨ (e = ValueError ∧ ∃ l, cond = Generator.CSeq l)
        ∨ (∃ p token, cond = Generator.CCall p ∧
             token ∈ tokens (Generator.cursor self) ∧ p token = Raise e)
    | OutOfFuel => False
    end.
Proof.
  induction fuel as [|fuel IH]; intros frames cond acc self Hfuel; [lia|].
  cbn [Generator.fetch_until_loop].
  destruct (Generator.fetch_token self) as [[[token|] self1]|e] eqn:Hf.
  3:{ left. by apply generator_fetch_token_Raise. }
  2:{ by apply generator_fetch_token_Ok in Hf as (? & ? & _). }
  apply generator_fetch_token_Ok in Hf as (Hs1 & He1 & Ht).
  rewrite Ht in Hfuel. cbn [length] in Hfuel.
  destruct (Generator.stops cond token) as [[|]|e] eqn:Hstop.
  - done.
  - assert (Hrest : ∀ acc' self2,
      tokens (Generator.cursor self2)
        `suffix_of` tokens (Generator.cursor self1) →
      Generator.ending self2 = Generator.ending self1 →
      match Generator.fetch_until_loop fuel frames cond acc' self2 with
      | Done (r, self') =>
          tokens (Generator.cursor self')
            `suffix_of` tokens (Generator.cursor self) ∧
          Generator.ending self' = Generator.ending self
      | Raised e =>
          Generator.ending self = Some e ∨ e = RecursionError
          ∨ (e = ValueError ∧ ∃ l, cond = Generator.CSeq l)
          ∨ (∃ p token, cond = Generator.CCall p ∧
               token ∈ tokens (Generator.cursor self) ∧ p token = Raise e)
      | OutOfFuel => False
      end).
    { intros acc' self2 Hs2 He2.
      pose proof (suffix_length _ _ Hs2) as Hl2.
      pose proof (IH frames cond acc' self2 ltac:(lia)) as Hrun.
      destruct (Generator.fetch_until_loop fuel frames cond acc' self2)
        as [[r self']|e|]; [| |done].
      - destruct Hrun as [Hs' He']. split; [|congruence].
        by repeat (etrans; [eassumption|]).
      - destruct Hrun as [? | [? | [? | (p & tk & ? & Hin & ?)]]];
          [left; congruence | by right; left | by do 2 right; left |].
        do 3 right. exists p, tk. split_and!; [done | | done].
        apply (elem_of_suffix _ _ _ Hs1). by apply (elem_of_suffix _ _ _ Hs2). }
    destruct (closer token) as [cl|]; [|by apply Hrest].
    destruct frames as [|frames]; [by right; left|].
    pose proof (IH frames (Generator.CStr cl) [] self1 ltac:(lia)) as Hin.
    destruct (Generator.fetch_until_loop fuel frames (Generator.CStr cl) []
                self1) as [[inner self2]|e|]; [| |done].
    + destruct Hin as [Hs2 He2]. by apply Hrest.
    + destruct Hin as [? | [? | [[_ [? ?]] | (? & ? & ? & _)]]];
        [left; congruence | by right; left | done | done].
  - apply generator_stops_Raise in Hstop as [? | (p & -> & Hp)];
      [by do 2 right; left|].
    do 3 right. exists p, token. split_and!; [done | | done].
    rewrite Ht. by left.
Qed.

(** X7: the loop of [fetch_until] ends on every input, after at most one
    step for each token.  When [fetch_until] raises, it raises what the
    generator of the tokenizer raised at its end, or [RecursionError] at the
    nested call for a bracket, or the [ValueError] of the comparison with an
    element of a list or tuple, or what the callable raised on a token of
    the input.  When it returns, the tokens left are a tail of the tokens
    it was given. *)
Theorem generator_fetch_until_outcomes frames cond self :
  match Generator.fetch_until frames cond self with
  | Done (r, self') =>
      tokens (Generator.cursor self')
        `suffix_of` tokens (Generator.cursor self) ∧
      Generator.ending self' = Generator.ending self
  | Raised e =>
      Generator.ending self = Some e ∨ e = RecursionError
      ∨ (e = ValueError ∧ ∃ l, cond = Generator.CSeq l)
      ∨ (∃ p token, cond = Generator.CCall p ∧
           token ∈ tokens (Generator.cursor self) ∧ p token = Raise e)
  | OutOfFuel => False
  end.
Proof. apply generator_fetch_until_loop_outcomes. lia. Qed.





